(** * RecipeAllocator: a shallow embedding of [algorithm.py]

    The development follows the source file top to bottom:
    [obtain_numbers], [allocate_recipes], [fulfil_orders] and the part of
    [load_files] that builds the order table.  Stock counts are Python
    integers (the stock frame is transposed from a mixed dictionary, so
    its columns hold Python objects), hence [Z] without wrap-around.
    NumPy arrays are lists; a call that mutates its argument in place
    returns the contents of the array when it leaves. *)

From Stdlib Require Import ZArith Lia Ascii String.
From stdpp Require Import base list strings gmap sorting.

Local Open Scope Z_scope.

(** ** Python values that reach the code *)

(** Labels of the order frames: JSON keys are strings, [obtain_numbers]
    turns some of them into integers. *)
Inductive pyobj :=
| PyStr (s : string)
| PyInt (n : Z)
| PyNone.

Inductive exn := ValueError | IndexError.

Inductive result (A : Type) :=
| Ok (a : A)
| Raise (e : exn).
Arguments Ok {A} a.
Arguments Raise {A} e.

(** ** [obtain_numbers] *)

(** [str.split(sep)] for a one-character separator: never empty. *)
Fixpoint split (sep : ascii) (s : string) : list string :=
  match s with
  | EmptyString => [EmptyString]
  | String c s' =>
      if Ascii.eqb c sep then EmptyString :: split sep s'
      else match split sep s' with
           | w :: ws => String c w :: ws
           | [] => [String c EmptyString]
           end
  end.

Definition numberdict : gmap string Z :=
  <["two" := 2]> (<["three" := 3]> (<["four" := 4]> ∅)).

Definition obtain_numbers (string : pyobj) : pyobj :=
  match string with
  | PyStr s =>
      let num := hd EmptyString (split "_" s) in
      match numberdict !! num with
      | Some n => PyInt n
      | None => string
      end
  | _ => string
  end.

(** ** The NumPy operations used by [allocate_recipes] *)

(** [np.argpartition] is taken with the contract NumPy documents: the
    result is a permutation of the positions of [a]; read through it, the
    entry at place [kth] is where a sort would put it, no entry before it
    is larger and no entry after it is smaller.  Which of several equal
    entries comes first is left open, as NumPy leaves it. *)
Class ArgPartition := {
  argpartition : list Z → nat → list nat;
  argpartition_perm (a : list Z) (kth : nat) :
    (kth < length a)%nat → argpartition a kth ≡ₚ seq 0 (length a);
  argpartition_pivot (a : list Z) (kth i j : nat) (x y : Z) :
    (kth < length a)%nat → (i ≤ kth ≤ j)%nat →
    ((λ t, a !!! t) <$> argpartition a kth) !! i = Some x →
    ((λ t, a !!! t) <$> argpartition a kth) !! j = Some y →
    x ≤ y
}.

Section numpy.
Context `{ArgPartition}.

(** [np.argpartition(a, kth)] for an integer [kth]: a negative [kth]
    counts from the end; on a non-empty array a [kth] outside it raises
    [ValueError]. *)
Definition np_argpartition (a : list Z) (kth : Z) : result (list nat) :=
  let n := Z.of_nat (length a) in
  let k := if kth <? 0 then kth + n else kth in
  if n =? 0 then Ok []
  else if (k <? 0) || (n <=? k) then Raise ValueError
  else Ok (argpartition a (Z.to_nat k)).

(** [l[start:]] *)
Definition slice_from {A} (start : Z) (l : list A) : list A :=
  let n := Z.of_nat (length l) in
  let s := if start <? 0 then Z.max 0 (start + n) else Z.min start n in
  drop (Z.to_nat s) l.

(** [a[idx]] for an index array: the entries at these positions. *)
Definition take_idx (a : list Z) (idx : list nat) : result (list Z) :=
  match mapM (λ i, a !! i) idx with
  | Some vals => Ok vals
  | None => Raise IndexError
  end.

(** [a[idx] = vals], one store per position, in order. *)
Definition put_idx (a : list Z) (idx : list nat) (vals : list Z) : list Z :=
  foldl (λ acc iv, <[iv.1 := iv.2]> acc) a (zip idx vals).

(** [a.min()]: no minimum of an empty array. *)
Definition np_min (a : list Z) : result Z :=
  match a with
  | [] => Raise ValueError
  | x :: a' => Ok (foldl Z.min x a')
  end.

(** [range(N, 0, -1)] *)
Definition range_down (N : Z) : list Z :=
  Z.of_nat <$> rev (seq 1 (Z.to_nat N)).

(** ** [allocate_recipes] *)

(** [np.argpartition(stock_levels, -N_recipes)[-N_recipes:]] *)
Definition recipe_choices (stock_levels : list Z) (N_recipes : Z) : result (list nat) :=
  match np_argpartition stock_levels (- N_recipes) with
  | Ok idx => Ok (slice_from (- N_recipes) idx)
  | Raise e => Raise e
  end.

(** The [for] loop of lines 56-67 over the values [N_orders_left] still
    to come.  The first component is the array [stock_levels] when the
    function leaves (it is mutated in place), the second what is
    returned beside it, or the exception. *)
Fixpoint allocate_loop (counters : list Z) (stock_levels : list Z)
    (N_portions N_recipes : Z) : list Z * result Z :=
  match counters with
  | [] => (stock_levels, Ok 0)
  | N_orders_left :: counters' =>
      match recipe_choices stock_levels N_recipes with
      | Raise e => (stock_levels, Raise e)
      | Ok choices =>
          match take_idx stock_levels choices with
          | Raise e => (stock_levels, Raise e)
          | Ok chosen =>
              match np_min chosen with
              | Raise e => (stock_levels, Raise e)
              | Ok m =>
                  if m <? N_portions then (stock_levels, Ok N_orders_left)
                  else
                    allocate_loop counters'
                      (put_idx stock_levels choices ((λ x, x - N_portions) <$> chosen))
                      N_portions N_recipes
              end
          end
      end
  end.

Definition allocate_recipes (N_orders : Z) (stock_levels : list Z)
    (N_portions N_recipes : Z) : list Z * result Z :=
  if Z.of_nat (length stock_levels) <? N_recipes then (stock_levels, Ok N_orders)
  else allocate_loop (range_down N_orders) stock_levels N_portions N_recipes.

End numpy.

(** ** [fulfil_orders] *)

(** A row of the stock frame. *)
Record recipe_row := { stock_count : Z; box_type : string }.

(** [Ordersdict]: the labels of the three axes of [OrdersDF], keyed 0, 1
    and 2.  The model covers numeric labels on axes 1 and 2. *)
Record axes := { axis0 : list string; axis1 : list Z; axis2 : list Z }.

(** Which array a call of [allocate_recipes] was handed. *)
Inductive pool := VegetarianStock | GourmetStock | AllStock.

(** One call of [allocate_recipes] with its arguments, as made. *)
Record call := Call {
  call_pool : pool;
  call_orders : Z;
  call_stock : list Z;
  call_portions : Z;
  call_recipes : Z
}.

(** The array bound to [stocks], and the calls made so far. *)
Record state := State { stocks : list Z; calls : list call }.

(** How a statement of the loop body leaves: it falls through, it
    returns from the function, or an exception goes up. *)
Inductive flow (A : Type) :=
| Next (a : A)
| Return (b : bool)
| Throw (e : exn).
Arguments Next {A} a.
Arguments Return {A} b.
Arguments Throw {A} e.

Definition M (A : Type) : Type := state → flow A * state.

#[global] Instance M_ret : MRet M := λ A a st, (Next a, st).
#[global] Instance M_bind : MBind M := λ A B f m st,
  match m st with
  | (Next a, st') => f a st'
  | (Return b, st') => (Return b, st')
  | (Throw e, st') => (Throw e, st')
  end.

Definition return_ {A} (b : bool) : M A := λ st, (Return b, st).
Definition throw {A} (e : exn) : M A := λ st, (Throw e, st).
Definition get_stocks : M (list Z) := λ st, (Next (stocks st), st).
Definition set_stocks (s : list Z) : M unit :=
  λ st, (Next tt, {| stocks := s; calls := calls st |}).
Definition record_call (c : call) : M unit :=
  λ st, (Next tt, {| stocks := stocks st; calls := calls st ++ [c] |}).

(** [l[i]] *)
Definition getitem {A} (l : list A) (i : nat) : M A :=
  match l !! i with
  | Some x => mret x
  | None => throw IndexError
  end.

(** [OrdersDF[i, j, k]] *)
Definition lookup3 (OrdersDF : list (list (list Z))) (i j k : nat) : option Z :=
  match OrdersDF !! i with
  | Some plane =>
      match plane !! j with
      | Some row => row !! k
      | None => None
      end
  | None => None
  end.

Definition getitem3 (OrdersDF : list (list (list Z))) (i j k : nat) : M Z :=
  match lookup3 OrdersDF i j k with
  | Some x => mret x
  | None => throw IndexError
  end.

(** [OrdersDF.shape] of a rectangular table. *)
Definition shape0 (OrdersDF : list (list (list Z))) : nat := length OrdersDF.
Definition shape1 (OrdersDF : list (list (list Z))) : nat :=
  length (hd [] OrdersDF).
Definition shape2 (OrdersDF : list (list (list Z))) : nat :=
  length (hd [] (hd [] OrdersDF)).

(** [a[mask]] for a boolean mask: a fresh array of the entries kept. *)
Fixpoint mask_get (mask : list bool) (a : list Z) : list Z :=
  match mask, a with
  | b :: mask', x :: a' =>
      if b then x :: mask_get mask' a' else mask_get mask' a'
  | _, _ => []
  end.

(** [a[mask] = vals]: the entries kept by the mask take the values, in
    order. *)
Fixpoint mask_set (mask : list bool) (a vals : list Z) : list Z :=
  match mask, a with
  | b :: mask', x :: a' =>
      if b then
        match vals with
        | v :: vals' => v :: mask_set mask' a' vals'
        | [] => x :: mask_set mask' a' []
        end
      else x :: mask_set mask' a' vals
  | _, _ => a
  end.

(** [for x in xs: body(x)] *)
Fixpoint for_each {A} (xs : list A) (body : A → M unit) : M unit :=
  match xs with
  | [] => mret tt
  | x :: xs' => body x ;; for_each xs' body
  end.

Section fulfil.
Context `{ArgPartition}.

(** [allocate_recipes] on a fresh array (a masked copy of [stocks]): the
    caller's [stocks] is not touched by the call. *)
Definition call_on_copy (c : call) : M (list Z * Z) :=
  record_call c ;;
  match allocate_recipes (call_orders c) (call_stock c) (call_portions c) (call_recipes c) with
  | (stocks_left, Ok orders_left) => mret (stocks_left, orders_left)
  | (_, Raise e) => throw e
  end.

(** [allocate_recipes(orders_left, stocks, ...)]: the array bound to
    [stocks] itself is handed over and mutated in place, so [stocks] has
    the new contents whatever the call returns. *)
Definition call_in_place (N_orders N_portions N_recipes : Z) : M Z :=
  stocks ← get_stocks;
  record_call (Call AllStock N_orders stocks N_portions N_recipes) ;;
  match allocate_recipes N_orders stocks N_portions N_recipes with
  | (stocks_left, Ok orders_left) => set_stocks stocks_left ;; mret orders_left
  | (stocks_left, Raise e) => set_stocks stocks_left ;; throw e
  end.

(** The body of the innermost loop, lines 98-124.  Line 98 reads the
    three labels before anything else. *)
Definition cell (veg_stocks gourmet_stocks : list bool)
    (OrdersDF : list (list (list Z))) (Ordersdict : axes) (i j k : nat) : M unit :=
  category ← getitem (axis0 Ordersdict) i;
  label1 ← getitem (axis1 Ordersdict) j;
  label2 ← getitem (axis2 Ordersdict) k;
  if String.eqb category "vegetarian" then
    N_orders ← getitem3 OrdersDF i j k;
    stocks ← get_stocks;
    '(stocks_left, orders_left) ←
      call_on_copy (Call VegetarianStock N_orders (mask_get veg_stocks stocks) label2 label1);
    if 0 <? orders_left then return_ false
    else set_stocks (mask_set veg_stocks stocks stocks_left)
  else if String.eqb category "gourmet" then
    N_orders ← getitem3 OrdersDF i j k;
    stocks ← get_stocks;
    '(stocks_left, orders_left) ←
      call_on_copy (Call GourmetStock N_orders (mask_get gourmet_stocks stocks) label2 label1);
    if 0 <? orders_left then
      orders_left ← call_in_place orders_left label2 label1;
      if 0 <? orders_left then return_ false
      else mret tt
    else set_stocks (mask_set gourmet_stocks stocks stocks_left)
  else mret tt.

Definition veg_mask (StockDF : list recipe_row) : list bool :=
  (λ r, String.eqb (box_type r) "vegetarian") <$> StockDF.
Definition gourmet_mask (StockDF : list recipe_row) : list bool :=
  (λ r, String.eqb (box_type r) "gourmet") <$> StockDF.

(** The three nested loops of lines 94-96. *)
Definition fulfil_loops (StockDF : list recipe_row)
    (OrdersDF : list (list (list Z))) (Ordersdict : axes) : M unit :=
  for_each (seq 0 (shape1 OrdersDF)) (λ j,
    for_each (seq 0 (shape0 OrdersDF)) (λ i,
      for_each (seq 0 (shape2 OrdersDF)) (λ k,
        cell (veg_mask StockDF) (gourmet_mask StockDF) OrdersDF Ordersdict i j k))).

(** Line 83: [stocks] starts as a copy of the stock column. *)
Definition initial_state (StockDF : list recipe_row) : state :=
  {| stocks := stock_count <$> StockDF; calls := [] |}.

(** [fulfil_orders]: what is returned (or raised), with the final
    [stocks] array and the calls made. *)
Definition fulfil_orders (StockDF : list recipe_row)
    (OrdersDF : list (list (list Z))) (Ordersdict : axes) : result bool * state :=
  match fulfil_loops StockDF OrdersDF Ordersdict (initial_state StockDF) with
  | (Next _, st) => (Ok true, st)
  | (Return b, st) => (Ok b, st)
  | (Throw e, st) => (Raise e, st)
  end.

End fulfil.

(** ** The order table built by [load_files] *)

(** A parsed JSON object: its keys with their values, in file order. *)
Fixpoint dict_get {V} (d : list (string * V)) (key : string) : option V :=
  match d with
  | [] => None
  | (k, v) :: d' => if String.eqb k key then Some v else dict_get d' key
  end.

(** A data frame of counts: row labels, column labels, and one row of
    values per row label. *)
Record DataFrame := {
  index : list pyobj;
  columns : list pyobj;
  values : list (list Z)
}.

(** [pd.DataFrame.from_dict(d)] for a dictionary of dictionaries: the
    outer keys label the columns and the inner keys the rows.  Modelled
    where every inner dictionary has the same keys in the same order
    (elsewhere pandas fills in missing values, which are not counts). *)
Definition from_dict (d : list (string * list (string * Z))) : option DataFrame :=
  let inner_keys := match d with [] => [] | (_, inner) :: _ => inner.*1 end in
  if bool_decide (Forall (λ ci, ci.2.*1 = inner_keys) d) then
    rows ← mapM (λ rk, mapM (λ ci : string * list (string * Z), dict_get ci.2 rk) d)
           inner_keys;
    Some {| index := PyStr <$> inner_keys; columns := PyStr <$> d.*1; values := rows |}
  else None.

Definition as_int (v : pyobj) : option Z :=
  match v with PyInt n => Some n | _ => None end.

(** The positions of [labels] from the greatest label to the least, as
    [sort_index(ascending=False)] arranges them. *)
Definition ge_at (labels : list Z) (i j : nat) : Prop := labels !!! j ≤ labels !!! i.

#[global] Instance ge_at_dec labels i j : Decision (ge_at labels i j).
Proof. unfold ge_at. apply _. Defined.

Definition order_desc (labels : list Z) : list nat :=
  merge_sort (ge_at labels) (seq 0 (length labels)).

Definition reorder {A} `{Inhabited A} (order : list nat) (l : list A) : list A :=
  (λ i, l !!! i) <$> order.

(** Lines 159-185 of [load_files]: the two frames, relabelled with the
    numbers [obtain_numbers] gives for the labels of the vegetarian
    frame, sorted downwards along both axes and stacked.  Modelled where
    both categories are present, the frames have the same shape and
    every label becomes a number. *)
Definition load_orders (orders : list (string * list (string * list (string * Z))))
    : option (list (list (list Z)) * axes) :=
  VegOrdersDF ← dict_get orders "vegetarian" ≫= from_dict;
  GourmOrdersDF ← dict_get orders "gourmet" ≫= from_dict;
  let colnames := obtain_numbers <$> columns VegOrdersDF in
  let indexnames := obtain_numbers <$> index VegOrdersDF in
  if bool_decide (length (columns GourmOrdersDF) = length colnames
                  ∧ length (index GourmOrdersDF) = length indexnames) then
    cols ← mapM as_int colnames;
    rows ← mapM as_int indexnames;
    let sorted (df : DataFrame) : list (list Z) :=
      reorder (order_desc cols) <$> reorder (order_desc rows) (values df) in
    Some ([sorted VegOrdersDF; sorted GourmOrdersDF],
          {| axis0 := ["vegetarian"; "gourmet"];
             axis1 := reorder (order_desc rows) rows;
             axis2 := reorder (order_desc cols) cols |})
  else None.

(** ** Reading [obtain_numbers] *)

(** The text before the first underscore: [string.split("_")[0]]. *)
Definition first_segment (s : string) : string := hd EmptyString (split "_" s).

Fixpoint has_underscore (s : string) : bool :=
  match s with
  | EmptyString => false
  | String c s' => Ascii.eqb c "_" || has_underscore s'
  end.

(** The rule read with the underscore required: only a label with an
    underscore in it is turned into a number. *)
Definition label_rule_as_stated (v : pyobj) : Prop :=
  match v with
  | PyStr s =>
      if has_underscore s then
        (first_segment s = "two" → obtain_numbers v = PyInt 2) ∧
        (first_segment s = "three" → obtain_numbers v = PyInt 3) ∧
        (first_segment s = "four" → obtain_numbers v = PyInt 4) ∧
        (first_segment s ≠ "two" → first_segment s ≠ "three" →
         first_segment s ≠ "four" → obtain_numbers v = v)
      else obtain_numbers v = v
  | _ => obtain_numbers v = v
  end.

(** ** An [argpartition] to run the model with

    A stable sort of the positions by their entries; it meets the
    contract for every [kth] ([argsort_partition] below). *)
Definition le_at (a : list Z) (i j : nat) : Prop := a !!! i ≤ a !!! j.

#[global] Instance le_at_dec a i j : Decision (le_at a i j).
Proof. unfold le_at. apply _. Defined.

Definition argsort (a : list Z) : list nat :=
  merge_sort (le_at a) (seq 0 (length a)).

(** ** Notions the statements are written with *)

(** The place handed to [argpartition] for [n] entries and [N_recipes]
    recipes per box: [n - N_recipes] for a positive [N_recipes], and
    [- N_recipes] otherwise. *)
Definition pivot_place (n : nat) (N_recipes : Z) : nat :=
  Z.to_nat (if 0 <? N_recipes then Z.of_nat n - N_recipes else - N_recipes).

(** The positions chosen for the next order, and the stock after it. *)
Definition chosen_places `{ArgPartition} (s : list Z) (r : Z) : list nat :=
  drop (pivot_place (length s) r) (argpartition s (pivot_place (length s) r)).

Definition after_order `{ArgPartition} (s : list Z) (p r : Z) : list Z :=
  put_idx s (chosen_places s r)
    ((λ x, x - p) <$> ((λ i, s !!! i) <$> chosen_places s r)).

Definition can_select (s : list Z) (r : Z) : Prop :=
  s ≠ [] ∧ ¬ Z.of_nat (length s) ≤ - r.

#[global] Instance can_select_dec (s : list Z) (r : Z) : Decision (can_select s r).
Proof. unfold can_select. apply _. Defined.

(** [cnt t s]: how many entries of [s] are at least [t].  The outcome of
    an order depends on the stock through these counts only, whichever
    of several equal entries [argpartition] picks. *)
Definition cnt (t : Z) (s : list Z) : nat := length (filter (λ x, t ≤ x) s).

(** [s'] dominates [s]: at every threshold it has at least as many
    entries above it. *)
Definition dominated (s s' : list Z) : Prop :=
  length s = length s' ∧ ∀ t, (cnt t s ≤ cnt t s')%nat.

(** The cells in the order the three loops reach them. *)
Definition cells (OrdersDF : list (list (list Z))) : list (nat * nat * nat) :=
  j ← seq 0 (shape1 OrdersDF);
  i ← seq 0 (shape0 OrdersDF);
  k ← seq 0 (shape2 OrdersDF);
  [(i, j, k)].

(** The loop body at a cell. *)
Definition at_cell `{ArgPartition} (StockDF : list recipe_row) (OrdersDF : list (list (list Z)))
    (Ordersdict : axes) (c : nat * nat * nat) : M unit :=
  cell (veg_mask StockDF) (gourmet_mask StockDF) OrdersDF Ordersdict c.1.1 c.1.2 c.2.

(** A cell whose labels and count can be read. *)
Definition reads (OrdersDF : list (list (list Z))) (Ordersdict : axes)
    (i j k : nat) (category : string) (N p r : Z) : Prop :=
  axis0 Ordersdict !! i = Some category ∧
  axis1 Ordersdict !! j = Some r ∧
  axis2 Ordersdict !! k = Some p ∧
  lookup3 OrdersDF i j k = Some N.

Definition with_call (st : state) (c : call) : state :=
  {| stocks := stocks st; calls := calls st ++ [c] |}.

(** What serving the orders one at a time means for a call: with no
    order left the stock comes back with count 0; otherwise the
    [N_recipes] places holding the greatest entries are chosen, the call
    stops with the stock as it is and the current count when the least
    chosen entry is below the portion, and otherwise goes on as a call
    for one order fewer on the stock with the portion taken from each
    chosen entry. *)
Definition order_by_order `{ArgPartition} (N : Z) (s : list Z) (p r : Z) : Prop :=
  (N ≤ 0 → allocate_recipes N s p r = (s, Ok 0)) ∧
  (0 < N →
    ∃ (choices : list nat) (m : Z),
      recipe_choices s r = Ok choices ∧
      Z.of_nat (length choices) = r ∧ NoDup choices ∧
      (∀ i, i ∈ choices → (i < length s)%nat) ∧
      (∀ i j, i ∈ choices → (j < length s)%nat → j ∉ choices → s !!! j ≤ s !!! i) ∧
      (∃ i, i ∈ choices ∧ m = s !!! i) ∧
      (∀ i, i ∈ choices → m ≤ s !!! i) ∧
      (m < p → allocate_recipes N s p r = (s, Ok N)) ∧
      (p ≤ m →
        ∃ s', length s' = length s ∧
              (∀ i, i ∈ choices → s' !!! i = s !!! i - p) ∧
              (∀ i, i ∉ choices → s' !!! i = s !!! i) ∧
              allocate_recipes N s p r = allocate_recipes (N - 1) s' p r)).

Definition nonneg (s : list Z) : Prop := Forall (λ x, 0 ≤ x) s.

(** No negative entry in [stocks], nor in any array handed to
    [allocate_recipes] so far. *)
Definition state_nonneg (st : state) : Prop :=
  nonneg (stocks st) ∧ Forall (λ c, nonneg (call_stock c)) (calls st).

(** The unmet count a recorded call comes back with. *)
Definition unmet_after `{ArgPartition} (c : call) (u : Z) : Prop :=
  ∃ s', allocate_recipes (call_orders c) (call_stock c)
          (call_portions c) (call_recipes c) = (s', Ok u).

(** A vegetarian call that left orders unmet. *)
Definition failed_vegetarian `{ArgPartition} (c : call) : Prop :=
  call_pool c = VegetarianStock ∧ ∃ u, unmet_after c u ∧ 0 < u.

(** Where the run stands as long as no vegetarian call has failed, and
    what holds once the loops are left. *)
Definition no_failure `{ArgPartition} (l : list call) : Prop :=
  Forall (λ c, ¬ failed_vegetarian c) l.

Definition stopped_at_failure `{ArgPartition} (fl : flow unit) (st : state) : Prop :=
  ∀ before c after,
    calls st = before ++ c :: after → failed_vegetarian c →
    fl = Return false ∧ after = [].

(** ** Inputs to run the model on *)

(** An orders file in the documented layout, portion-size label first
    and recipes-per-box label inside it, and a stock that serves it. *)
Definition orders_example : list (string * list (string * list (string * Z))) :=
  [ ("vegetarian",
      [ ("four_portions", [("three_recipes", 1); ("two_recipes", 1)]);
        ("two_portions", [("three_recipes", 1); ("two_recipes", 1)]) ]);
    ("gourmet",
      [ ("four_portions", [("three_recipes", 0); ("two_recipes", 0)]);
        ("two_portions", [("three_recipes", 0); ("two_recipes", 0)]) ]) ].

Definition stock_example : list recipe_row :=
  [ {| stock_count := 20; box_type := "vegetarian" |};
    {| stock_count := 20; box_type := "vegetarian" |};
    {| stock_count := 20; box_type := "vegetarian" |};
    {| stock_count := 20; box_type := "gourmet" |};
    {| stock_count := 20; box_type := "gourmet" |};
    {| stock_count := 20; box_type := "gourmet" |} ].

(** The pool, portion size and recipes per box of a call. *)
Definition call_cell (c : call) : pool * Z * Z :=
  (call_pool c, call_portions c, call_recipes c).

(** A gourmet stock that serves two of three orders alone, and the
    third only with the vegetarian entries. *)
Definition stock_fallback : list recipe_row :=
  [ {| stock_count := 10; box_type := "vegetarian" |};
    {| stock_count := 10; box_type := "vegetarian" |};
    {| stock_count := 12; box_type := "gourmet" |};
    {| stock_count := 10; box_type := "gourmet" |} ].
Definition table_fallback : list (list (list Z)) := [ [[0]]; [[3]] ].
Definition axes_fallback : axes :=
  {| axis0 := ["vegetarian"; "gourmet"]; axis1 := [2]; axis2 := [4] |}.

(** Scenario B of the specification: one vegetarian order that cannot
    be served. *)
Definition stock_short : list recipe_row :=
  [ {| stock_count := 1; box_type := "vegetarian" |};
    {| stock_count := 1; box_type := "vegetarian" |} ].
Definition table_short : list (list (list Z)) := [ [[1]]; [[0]] ].
Definition axes_short : axes :=
  {| axis0 := ["vegetarian"; "gourmet"]; axis1 := [2]; axis2 := [2] |}.

(** ** Further notions *)

(** The stock held in all entries together. *)
Definition total (s : list Z) : Z := foldr Z.add 0 s.

(** A call whose failure ends the run: one on the vegetarian stock or on
    the whole pool that leaves orders unmet. *)
Definition decisive_failure `{ArgPartition} (c : call) : Prop :=
  call_pool c ≠ GourmetStock ∧ ∃ u, unmet_after c u ∧ 0 < u.

(** ** [load_files] and [default_orders_satisfied] on parsed files *)








(** * Proofs *)

Ltac unfold_M :=
  unfold getitem, getitem3, call_on_copy, call_in_place, get_stocks, set_stocks,
    record_call, return_, throw, mbind, M_bind, mret, M_ret.

#[global] Instance le_at_total a : Total (le_at a).
Proof. intros i j. unfold le_at. lia. Qed.

#[global] Instance le_at_trans a : Transitive (le_at a).
Proof. intros i j k. unfold le_at. lia. Qed.

Lemma StronglySorted_lookup_le (a : list Z) (l : list nat) (i j u v : nat) :
  StronglySorted (le_at a) l → (i ≤ j)%nat →
  l !! i = Some u → l !! j = Some v → a !!! u ≤ a !!! v.
Proof.
  intros Hs. revert i j. induction Hs as [|w l Hs IH Hall]; intros i j Hij Hi Hj.
  - by rewrite lookup_nil in Hi.
  - destruct i as [|i], j as [|j]; simplify_eq/=; try lia.
    + rewrite Forall_forall in Hall. apply Hall.
      by eapply list_elem_of_lookup_2.
    + eapply IH; [|done..]. lia.
Qed.

#[global, refine] Instance argsort_partition : ArgPartition :=
  {| argpartition a _ := argsort a |}.
Proof.
  - intros a kth _. apply merge_sort_Permutation.
  - intros a kth i j x y _ [Hi Hj] Hx Hy.
    rewrite list_lookup_fmap in Hx. rewrite list_lookup_fmap in Hy.
    destruct (argsort a !! i) as [u|] eqn:Hu; [|done].
    destruct (argsort a !! j) as [v|] eqn:Hv; [|done].
    simplify_eq/=.
    eapply (StronglySorted_lookup_le a (argsort a) i j); [|lia|done..].
    apply StronglySorted_merge_sort; apply _.
Defined.

(** * Facts about the array operations *)

Lemma range_down_nonpos (N : Z) : N ≤ 0 → range_down N = [].
Proof.
  intros HN. unfold range_down.
  replace (Z.to_nat N) with 0%nat by lia. done.
Qed.

Lemma range_down_pos (N : Z) : 0 < N → range_down N = N :: range_down (N - 1).
Proof.
  intros HN. unfold range_down.
  replace (Z.to_nat N) with (S (Z.to_nat (N - 1))) by lia.
  rewrite seq_S, rev_unit, fmap_cons. f_equal. lia.
Qed.

Lemma range_down_length (N : Z) : length (range_down N) = Z.to_nat N.
Proof. unfold range_down. by rewrite length_fmap, length_rev, length_seq. Qed.

Lemma fmap_lookup_total_seq (a : list Z) :
  (λ i, a !!! i) <$> seq 0 (length a) = a.
Proof.
  apply list_eq. intros i. rewrite list_lookup_fmap.
  destruct (decide (i < length a)%nat) as [Hi|Hi].
  - rewrite lookup_seq_lt by done. simpl.
    destruct (lookup_lt_is_Some_2 a i Hi) as [x Hx].
    rewrite Hx. f_equal. by apply list_lookup_total_correct.
  - rewrite lookup_seq_ge by lia. simpl.
    symmetry. apply lookup_ge_None. lia.
Qed.

Lemma take_idx_Ok (a : list Z) (idx : list nat) :
  Forall (λ i, (i < length a)%nat) idx →
  take_idx a idx = Ok ((λ i, a !!! i) <$> idx).
Proof.
  intros Hidx. unfold take_idx.
  assert (mapM (λ i, a !! i) idx = Some ((λ i, a !!! i) <$> idx)) as ->; [|done].
  apply mapM_Some. induction Hidx as [|i idx Hi _ IH]; csimpl; constructor; [|done].
  destruct (lookup_lt_is_Some_2 a i Hi) as [x Hx].
  rewrite Hx. f_equal. symmetry. by apply list_lookup_total_correct.
Qed.

Lemma take_idx_inv (a : list Z) (idx : list nat) (chosen : list Z) :
  take_idx a idx = Ok chosen →
  Forall (λ i, (i < length a)%nat) idx ∧ chosen = (λ i, a !!! i) <$> idx.
Proof.
  unfold take_idx. destruct (mapM _ idx) as [vals|] eqn:Hm; [|done].
  intros [= <-]. apply mapM_Some in Hm.
  induction Hm as [|i x idx vals Hx _ [IH1 IH2]]; [done|].
  split.
  - constructor; [by eapply lookup_lt_Some|done].
  - csimpl. f_equal; [|done]. symmetry. by apply list_lookup_total_correct.
Qed.

(** Storing, at each chosen position, a value computed from the position. *)
Lemma put_idx_fmap (a : list Z) (idx : list nat) (g : nat → Z) :
  put_idx a idx (g <$> idx) = foldl (λ acc i, <[i := g i]> acc) a idx.
Proof.
  unfold put_idx. revert a. induction idx as [|i idx IH]; intros a; [done|].
  csimpl. apply IH.
Qed.

Lemma put_idx_length (a : list Z) (idx : list nat) (vals : list Z) :
  length (put_idx a idx vals) = length a.
Proof.
  unfold put_idx. revert a. generalize (zip idx vals) as ivs.
  induction ivs as [|iv ivs IH]; intros a; [done|].
  simpl. rewrite IH. apply length_insert.
Qed.

Lemma put_idx_lookup (a : list Z) (idx : list nat) (g : nat → Z) (j : nat) :
  put_idx a idx (g <$> idx) !! j =
    if decide (j ∈ idx ∧ (j < length a)%nat) then Some (g j) else a !! j.
Proof.
  rewrite put_idx_fmap. revert a.
  induction idx as [|i idx IH]; intros a; simpl.
  - destruct (decide (j ∈ [] ∧ (j < length a)%nat)) as [[Hd _]|]; [|done].
    by apply elem_of_nil in Hd.
  - rewrite IH, length_insert.
    destruct (decide (j ∈ idx ∧ (j < length a)%nat)) as [[Hin Hlt]|Hno].
    + rewrite decide_True; [done|]. split; [by right|done].
    + destruct (decide (i = j)) as [->|Hij].
      * destruct (decide (j < length a)%nat).
        -- rewrite list_lookup_insert_eq by done.
           rewrite decide_True; [done|]. split; [by left|done].
        -- rewrite list_insert_ge by lia.
           rewrite decide_False; [done|]. intros [_ ?]; lia.
      * rewrite list_lookup_insert_ne by done.
        rewrite decide_False; [done|].
        intros [Hin Hlt]. apply Hno. split; [|done].
        apply elem_of_cons in Hin as [->|]; done.
Qed.

Lemma np_min_Ok (a : list Z) (m : Z) :
  np_min a = Ok m → m ∈ a ∧ Forall (λ x, m ≤ x) a.
Proof.
  destruct a as [|x a]; [done|]. simpl. intros [= <-].
  revert x. induction a as [|y a IH]; intros x; simpl.
  - split; [by left|]. constructor; [lia|done].
  - destruct (IH (Z.min x y)) as [Hin Hall]. split.
    + apply elem_of_cons in Hin as [Hin|Hin].
      * rewrite Hin. destruct (Z.min_spec x y) as [[_ ->]|[_ ->]];
          [by left|right; by left].
      * right; by right.
    + apply Forall_cons in Hall as [Hm Hall].
      constructor; [lia|]. constructor; [lia|done].
Qed.

Lemma np_min_cons (x : Z) (a : list Z) : ∃ m, np_min (x :: a) = Ok m.
Proof. by eexists. Qed.

(** * The selection made for one order *)

Section selection.
Context `{ArgPartition}.
Implicit Types (s : list Z) (p r : Z) (k : nat).

Lemma argpartition_length s k :
  (k < length s)%nat → length (argpartition s k) = length s.
Proof.
  intros Hk. rewrite (Permutation_length (argpartition_perm s k Hk)).
  apply length_seq.
Qed.

Lemma argpartition_NoDup s k : (k < length s)%nat → NoDup (argpartition s k).
Proof.
  intros Hk. rewrite (argpartition_perm s k Hk). apply NoDup_seq.
Qed.

Lemma argpartition_elem_of s k i :
  (k < length s)%nat → i ∈ argpartition s k ↔ (i < length s)%nat.
Proof.
  intros Hk. rewrite (argpartition_perm s k Hk), elem_of_seq. lia.
Qed.

(** What [recipe_choices] gives once the guard of line 52 is passed. *)
Lemma recipe_choices_eq s r :
  r ≤ Z.of_nat (length s) →
  recipe_choices s r =
    if decide (s = []) then Ok []
    else if decide (Z.of_nat (length s) ≤ - r) then Raise ValueError
    else Ok (drop (pivot_place (length s) r) (argpartition s (pivot_place (length s) r))).
Proof.
  intros Hr. unfold recipe_choices, np_argpartition, pivot_place.
  destruct (decide (s = [])) as [->|Hs].
  { simpl. unfold slice_from. by rewrite drop_nil. }
  assert (0 < length s)%nat by (destruct s; [done|simpl; lia]).
  rewrite (proj2 (Z.eqb_neq _ _)) by lia.
  destruct (Z.ltb_spec (- r) 0) as [Hneg|Hpos].
  - destruct (Z.ltb_spec (- r + Z.of_nat (length s)) 0); [lia|].
    destruct (Z.leb_spec (Z.of_nat (length s)) (- r + Z.of_nat (length s))); [lia|].
    simpl. rewrite decide_False by lia.
    destruct (Z.ltb_spec 0 r); [|lia].
    unfold slice_from. rewrite argpartition_length by lia.
    destruct (Z.ltb_spec (- r) 0); [|lia].
    f_equal. f_equal; [lia | f_equal; lia].
  - destruct (Z.ltb_spec (- r) 0); [lia|].
    destruct (Z.leb_spec (Z.of_nat (length s)) (- r)); simpl.
    + by rewrite decide_True by lia.
    + rewrite decide_False by lia.
      destruct (Z.ltb_spec 0 r); [lia|].
      unfold slice_from. rewrite argpartition_length by lia.
      destruct (Z.ltb_spec (- r) 0); [lia|].
      f_equal. f_equal; lia.
Qed.

Lemma pivot_place_lt s r :
  s ≠ [] → r ≤ Z.of_nat (length s) → ¬ Z.of_nat (length s) ≤ - r →
  (pivot_place (length s) r < length s)%nat.
Proof.
  intros Hs Hr Hin. unfold pivot_place.
  destruct (Z.ltb_spec 0 r); lia.
Qed.

Lemma pivot_place_pos s r :
  0 < r → r ≤ Z.of_nat (length s) →
  Z.of_nat (length s - pivot_place (length s) r) = r.
Proof.
  intros Hr Hle. unfold pivot_place.
  rewrite (proj2 (Z.ltb_lt 0 r)) by lia. lia.
Qed.

(** The chosen positions are in range, so reading them succeeds. *)
Lemma choices_in_range s k :
  (k < length s)%nat →
  Forall (λ i, (i < length s)%nat) (drop k (argpartition s k)).
Proof.
  intros Hk. apply Forall_forall. intros i Hi.
  apply (argpartition_elem_of s k i Hk).
  rewrite <- (take_drop k (argpartition s k)). apply elem_of_app. by right.
Qed.

Lemma choices_NoDup s k : (k < length s)%nat → NoDup (drop k (argpartition s k)).
Proof.
  intros Hk. pose proof (argpartition_NoDup s k Hk) as Hnd.
  rewrite <- (take_drop k (argpartition s k)) in Hnd.
  by apply NoDup_app in Hnd as (_ & _ & ?).
Qed.

Lemma not_chosen_before s k i :
  (k < length s)%nat → (i < length s)%nat → i ∉ drop k (argpartition s k) →
  i ∈ take k (argpartition s k).
Proof.
  intros Hk Hi Hno. apply (argpartition_elem_of s k i Hk) in Hi.
  rewrite <- (take_drop k (argpartition s k)) in Hi.
  apply elem_of_app in Hi as [?|?]; done.
Qed.

Lemma before_not_chosen s k i :
  (k < length s)%nat → i ∈ take k (argpartition s k) →
  i ∉ drop k (argpartition s k).
Proof.
  intros Hk Hi. pose proof (argpartition_NoDup s k Hk) as Hnd.
  rewrite <- (take_drop k (argpartition s k)) in Hnd.
  apply NoDup_app in Hnd as (_ & Hdisj & _). by apply Hdisj.
Qed.

(** No entry left out is larger than an entry chosen. *)
Lemma before_le_chosen s k i j :
  (k < length s)%nat →
  i ∈ take k (argpartition s k) → j ∈ drop k (argpartition s k) →
  s !!! i ≤ s !!! j.
Proof.
  intros Hk Hi Hj.
  apply elem_of_take in Hi as (a & Ha & Hak).
  apply list_elem_of_lookup in Hj as [b Hb]. rewrite lookup_drop in Hb.
  apply (argpartition_pivot s k a (k + b) (s !!! i) (s !!! j) Hk); [lia|..].
  - by rewrite list_lookup_fmap, Ha.
  - by rewrite list_lookup_fmap, Hb.
Qed.

(** The stock splits into the entries left out and the entries chosen,
    and after the subtraction into the entries left out and the chosen
    ones lowered. *)
Lemma stock_split s k :
  (k < length s)%nat →
  s ≡ₚ ((λ i, s !!! i) <$> take k (argpartition s k))
        ++ ((λ i, s !!! i) <$> drop k (argpartition s k)).
Proof.
  intros Hk. rewrite <- fmap_app, take_drop.
  rewrite (argpartition_perm s k Hk). by rewrite fmap_lookup_total_seq.
Qed.

Lemma put_idx_lookup_total s (idx : list nat) (g : nat → Z) (j : nat) :
  put_idx s idx (g <$> idx) !!! j =
    if decide (j ∈ idx ∧ (j < length s)%nat) then g j else s !!! j.
Proof.
  rewrite !list_lookup_total_alt, put_idx_lookup. by case_decide.
Qed.

Lemma stock_split_after s k p :
  (k < length s)%nat →
  put_idx s (drop k (argpartition s k))
    ((λ x, x - p) <$> ((λ i, s !!! i) <$> drop k (argpartition s k)))
  ≡ₚ ((λ i, s !!! i) <$> take k (argpartition s k))
      ++ ((λ x, x - p) <$> ((λ i, s !!! i) <$> drop k (argpartition s k))).
Proof.
  intros Hk. rewrite <- list_fmap_compose.
  set (g := (λ x, x - p) ∘ (λ i, s !!! i)).
  set (s' := put_idx s _ _).
  rewrite <- (fmap_lookup_total_seq s').
  unfold s' at 2. rewrite put_idx_length.
  rewrite <- (argpartition_perm s k Hk).
  rewrite <- (take_drop k (argpartition s k)) at 1.
  rewrite fmap_app. f_equiv.
  - apply reflexive_eq, Forall_fmap_ext_1, Forall_forall. intros i Hi.
    unfold s'. rewrite put_idx_lookup_total.
    rewrite decide_False; [done|]. intros [Hin _].
    by apply (before_not_chosen s k i Hk).
  - apply reflexive_eq, Forall_fmap_ext_1, Forall_forall. intros i Hi.
    unfold s'. rewrite put_idx_lookup_total.
    rewrite decide_True; [done|]. split; [done|].
    pose proof (choices_in_range s k Hk) as Hr.
    rewrite Forall_forall in Hr. by apply Hr.
Qed.

End selection.

(** * One order of [allocate_recipes] *)

Section one_order.
Context `{ArgPartition}.
Implicit Types (s : list Z) (p r c : Z) (cs : list Z).

Lemma chosen_places_length s r :
  r ≤ Z.of_nat (length s) → can_select s r →
  length (chosen_places s r) = (length s - pivot_place (length s) r)%nat.
Proof.
  intros Hr [Hs Hin]. unfold chosen_places.
  rewrite length_drop, argpartition_length; [done|].
  by apply pivot_place_lt.
Qed.

Lemma after_order_length s p r : length (after_order s p r) = length s.
Proof. apply put_idx_length. Qed.

Lemma allocate_loop_raise s p r c cs :
  r ≤ Z.of_nat (length s) → ¬ can_select s r →
  allocate_loop (c :: cs) s p r = (s, Raise ValueError).
Proof.
  intros Hr Hno. simpl. rewrite recipe_choices_eq by done.
  destruct (decide (s = [])) as [->|Hs]; [done|].
  rewrite decide_True; [done|].
  destruct (decide (Z.of_nat (length s) ≤ - r)); [done|].
  destruct Hno. by split.
Qed.

Lemma allocate_loop_step s p r c cs :
  r ≤ Z.of_nat (length s) → can_select s r →
  ∃ m, np_min ((λ i, s !!! i) <$> chosen_places s r) = Ok m ∧
       allocate_loop (c :: cs) s p r =
         if m <? p then (s, Ok c) else allocate_loop cs (after_order s p r) p r.
Proof.
  intros Hr Hsel. pose proof Hsel as [Hs Hin].
  pose proof (pivot_place_lt s r Hs Hr Hin) as Hk.
  pose proof (chosen_places_length s r Hr Hsel) as Hlen.
  destruct ((λ i, s !!! i) <$> chosen_places s r) as [|x chosen] eqn:Hch.
  { apply (f_equal length) in Hch. rewrite length_fmap in Hch. simpl in Hch. lia. }
  exists (foldl Z.min x chosen). split; [done|].
  simpl. rewrite recipe_choices_eq by done.
  rewrite decide_False by done. rewrite decide_False by done.
  fold (chosen_places s r).
  rewrite take_idx_Ok by apply (choices_in_range s _ Hk).
  unfold after_order. rewrite Hch. done.
Qed.

(** The loop gives back a count between 0 and the number of orders. *)
Lemma allocate_loop_unmet_bounds (n : nat) s p r s' u :
  allocate_loop (range_down (Z.of_nat n)) s p r = (s', Ok u) →
  0 ≤ u ≤ Z.of_nat n.
Proof.
  revert s. induction n as [|n IH]; intros s.
  - simpl. intros [= _ <-]. lia.
  - rewrite range_down_pos by lia.
    replace (Z.of_nat (S n) - 1) with (Z.of_nat n) by lia.
    simpl. destruct (recipe_choices s r) as [choices|]; [|done].
    destruct (take_idx s choices) as [chosen|]; [|done].
    destruct (np_min chosen) as [m|]; [|done].
    destruct (m <? p).
    + intros [= _ <-]. lia.
    + intros Hrec. apply IH in Hrec. lia.
Qed.

End one_order.

(** * Counting the entries above a threshold *)

#[global] Instance cnt_Permutation t : Proper ((≡ₚ) ==> (=)) (cnt t).
Proof. intros s1 s2 Hs. unfold cnt. by rewrite Hs. Qed.

Lemma cnt_app t s1 s2 : cnt t (s1 ++ s2) = (cnt t s1 + cnt t s2)%nat.
Proof. unfold cnt. by rewrite filter_app, length_app. Qed.

Lemma cnt_cons t x s :
  cnt t (x :: s) = ((if decide (t ≤ x)%Z then 1 else 0) + cnt t s)%nat.
Proof. unfold cnt. rewrite filter_cons. by destruct (decide (t ≤ x)). Qed.

Lemma cnt_le_length t s : (cnt t s ≤ length s)%nat.
Proof. apply length_filter. Qed.

Lemma cnt_all t s : Forall (λ x, t ≤ x) s → cnt t s = length s.
Proof.
  unfold cnt. induction 1 as [|x s Hx _ IH]; [done|].
  rewrite filter_cons_True by done. simpl. by rewrite IH.
Qed.

Lemma cnt_all_inv t s : cnt t s = length s → Forall (λ x, t ≤ x) s.
Proof.
  unfold cnt. induction s as [|x s IH]; [done|].
  rewrite filter_cons. pose proof (length_filter (λ x, t ≤ x) s).
  destruct (decide (t ≤ x)); simpl; intros Hlen; [|lia].
  constructor; [done|]. apply IH. lia.
Qed.

Lemma cnt_none t s : Forall (λ x, x < t) s → cnt t s = 0%nat.
Proof.
  unfold cnt. induction 1 as [|x s Hx _ IH]; [done|].
  rewrite filter_cons_False by lia. done.
Qed.

Lemma cnt_fmap_sub t p s : cnt t ((λ x, x - p) <$> s) = cnt (t + p) s.
Proof.
  unfold cnt. induction s as [|x s IH]; [done|].
  csimpl. rewrite !filter_cons.
  destruct (decide (t ≤ x - p)), (decide (t + p ≤ x)); simpl; lia.
Qed.

Lemma cnt_mono_threshold t t' s : t ≤ t' → (cnt t' s ≤ cnt t s)%nat.
Proof.
  intros Ht. unfold cnt. induction s as [|x s IH]; [done|].
  rewrite !filter_cons.
  destruct (decide (t' ≤ x)), (decide (t ≤ x)); simpl; lia.
Qed.

(** Of a stock split into a lower and an upper part, the upper part
    holds as many entries above [t] as it can. *)
Lemma cnt_upper t (lo hi : list Z) :
  (∀ x y, x ∈ lo → y ∈ hi → x ≤ y) →
  cnt t hi = (length hi `min` (cnt t lo + cnt t hi))%nat.
Proof.
  intros Hsplit.
  destruct (decide (Forall (λ y, t ≤ y) hi)) as [Hall|Hnot].
  - rewrite (cnt_all t hi Hall). lia.
  - apply not_Forall_Exists in Hnot; [|apply _].
    apply Exists_exists in Hnot as (y & Hy & Hlt). simpl in Hlt.
    rewrite (cnt_none t lo).
    + pose proof (cnt_le_length t hi). lia.
    + apply Forall_forall. intros x Hx. specialize (Hsplit x y Hx Hy). lia.
Qed.

Section counting.
Context `{ArgPartition}.
Implicit Types (s : list Z) (p r t : Z).

Lemma chosen_split s r :
  r ≤ Z.of_nat (length s) → can_select s r →
  ∀ x y, x ∈ (λ i, s !!! i) <$> take (pivot_place (length s) r)
                (argpartition s (pivot_place (length s) r)) →
         y ∈ (λ i, s !!! i) <$> chosen_places s r → x ≤ y.
Proof.
  intros Hr [Hs Hin] x y Hx Hy.
  pose proof (pivot_place_lt s r Hs Hr Hin) as Hk.
  apply list_elem_of_fmap in Hx as (i & -> & Hi).
  apply list_elem_of_fmap in Hy as (j & -> & Hj).
  by eapply before_le_chosen.
Qed.

Lemma cnt_stock_split s r t :
  r ≤ Z.of_nat (length s) → can_select s r →
  cnt t s =
    (cnt t ((λ i, s !!! i) <$> take (pivot_place (length s) r)
              (argpartition s (pivot_place (length s) r)))
     + cnt t ((λ i, s !!! i) <$> chosen_places s r))%nat.
Proof.
  intros Hr [Hs Hin].
  pose proof (pivot_place_lt s r Hs Hr Hin) as Hk.
  rewrite <- cnt_app. apply cnt_Permutation. by apply stock_split.
Qed.

Lemma cnt_chosen s r t :
  r ≤ Z.of_nat (length s) → can_select s r →
  cnt t ((λ i, s !!! i) <$> chosen_places s r)
  = (length (chosen_places s r) `min` cnt t s)%nat.
Proof.
  intros Hr Hsel.
  rewrite (cnt_stock_split s r t Hr Hsel).
  rewrite <- (length_fmap (λ i, s !!! i) (chosen_places s r)).
  apply cnt_upper. by apply chosen_split.
Qed.

Lemma cnt_after_order s p r t :
  r ≤ Z.of_nat (length s) → can_select s r →
  cnt t (after_order s p r)
  = (cnt t s - (length (chosen_places s r) `min` cnt t s)
     + (length (chosen_places s r) `min` cnt (t + p) s))%nat.
Proof.
  intros Hr Hsel. pose proof Hsel as [Hs Hin].
  pose proof (pivot_place_lt s r Hs Hr Hin) as Hk.
  pose proof (cnt_chosen s r t Hr Hsel) as Hc.
  pose proof (cnt_chosen s r (t + p) Hr Hsel) as Hcp.
  pose proof (cnt_stock_split s r t Hr Hsel) as Hsp.
  assert (cnt t (after_order s p r) =
          (cnt t ((λ i, s !!! i) <$> take (pivot_place (length s) r)
                    (argpartition s (pivot_place (length s) r)))
           + cnt (t + p) ((λ i, s !!! i) <$> chosen_places s r))%nat) as ->.
  { rewrite <- cnt_fmap_sub, <- cnt_app. apply cnt_Permutation.
    by apply stock_split_after. }
  lia.
Qed.

(** The order can be served when enough entries reach the portion. *)
Lemma min_chosen_ge s p r m :
  r ≤ Z.of_nat (length s) → can_select s r →
  np_min ((λ i, s !!! i) <$> chosen_places s r) = Ok m →
  p ≤ m ↔ (length (chosen_places s r) ≤ cnt p s)%nat.
Proof.
  intros Hr Hsel Hm. apply np_min_Ok in Hm as [Hin Hall].
  pose proof (cnt_chosen s r p Hr Hsel) as Hc. split.
  - intros Hp. rewrite cnt_all in Hc.
    + rewrite length_fmap in Hc. lia.
    + eapply Forall_impl; [done|]. simpl. lia.
  - intros Hle. assert (cnt p ((λ i, s !!! i) <$> chosen_places s r)
                        = length ((λ i, s !!! i) <$> chosen_places s r)) as Hfull.
    { rewrite length_fmap. lia. }
    apply cnt_all_inv in Hfull. rewrite Forall_forall in Hfull. by apply Hfull.
Qed.

End counting.

(** * The whole loop of [allocate_recipes] *)

Lemma dominated_insert (s : list Z) (i : nat) (x v : Z) :
  s !! i = Some x → x ≤ v → dominated s (<[i := v]> s).
Proof.
  intros Hi Hv. split; [by rewrite length_insert|]. intros t.
  rewrite insert_take_drop by (by eapply lookup_lt_Some).
  rewrite <- (take_drop_middle s i x Hi) at 1.
  rewrite !cnt_app, !cnt_cons.
  destruct (decide (t ≤ x)), (decide (t ≤ v)); lia.
Qed.

Section loop.
Context `{ArgPartition}.
Implicit Types (s : list Z) (p r : Z).

Lemma can_select_length s s' r :
  length s = length s' → can_select s r → can_select s' r.
Proof.
  intros Hlen [Hs Hin]. split; [|by rewrite <- Hlen].
  intros ->. by destruct s.
Qed.

Lemma chosen_places_length_eq s s' r :
  length s = length s' → r ≤ Z.of_nat (length s) → can_select s r →
  length (chosen_places s r) = length (chosen_places s' r).
Proof.
  intros Hlen Hr Hsel.
  rewrite !chosen_places_length; [by rewrite Hlen|..]; try done.
  - by rewrite <- Hlen.
  - by eapply can_select_length.
Qed.

Lemma allocate_loop_returns cs s p r :
  r ≤ Z.of_nat (length s) → can_select s r →
  ∃ s' u, allocate_loop cs s p r = (s', Ok u).
Proof.
  revert s. induction cs as [|c cs IH]; intros s Hr Hsel; [by eexists _, _|].
  destruct (allocate_loop_step s p r c cs Hr Hsel) as (m & _ & ->).
  destruct (m <? p); [by eexists _, _|].
  apply IH.
  - by rewrite after_order_length.
  - eapply can_select_length; [|done]. by rewrite after_order_length.
Qed.

(** Every order leaves the stock without a negative entry. *)
Lemma after_order_nonneg s p r m :
  r ≤ Z.of_nat (length s) → can_select s r →
  np_min ((λ i, s !!! i) <$> chosen_places s r) = Ok m → p ≤ m →
  Forall (λ x, 0 ≤ x) s → Forall (λ x, 0 ≤ x) (after_order s p r).
Proof.
  intros Hr Hsel Hm Hp Hs. pose proof Hsel as [Hne Hin].
  pose proof (pivot_place_lt s r Hne Hr Hin) as Hk.
  apply np_min_Ok in Hm as [_ Hall]. rewrite Forall_forall in Hall.
  rewrite Forall_forall in Hs.
  apply Forall_forall. intros x Hx.
  unfold after_order, chosen_places in Hx.
  rewrite (stock_split_after s _ p Hk) in Hx.
  apply elem_of_app in Hx as [Hx|Hx].
  - apply Hs. rewrite (stock_split s _ Hk). apply elem_of_app. by left.
  - apply list_elem_of_fmap in Hx as (y & -> & Hy).
    specialize (Hall y Hy). lia.
Qed.

Lemma allocate_loop_nonneg cs s p r :
  r ≤ Z.of_nat (length s) →
  Forall (λ x, 0 ≤ x) s → Forall (λ x, 0 ≤ x) (allocate_loop cs s p r).1.
Proof.
  revert s. induction cs as [|c cs IH]; intros s Hr Hs; [done|].
  destruct (decide (can_select s r)) as [Hsel|Hno].
  - destruct (allocate_loop_step s p r c cs Hr Hsel) as (m & Hm & ->).
    destruct (Z.ltb_spec m p); [done|].
    apply IH; [by rewrite after_order_length|].
    by eapply after_order_nonneg.
  - by rewrite allocate_loop_raise.
Qed.

Lemma dominated_after_order s s' p r :
  r ≤ Z.of_nat (length s) → can_select s r → dominated s s' →
  dominated (after_order s p r) (after_order s' p r).
Proof.
  intros Hr Hsel [Hlen Hcnt].
  assert (r ≤ Z.of_nat (length s')) as Hr' by (by rewrite <- Hlen).
  pose proof (can_select_length s s' r Hlen Hsel) as Hsel'.
  split; [by rewrite !after_order_length|]. intros t.
  rewrite !cnt_after_order by done.
  rewrite <- (chosen_places_length_eq s s' r Hlen Hr Hsel).
  pose proof (Hcnt t). pose proof (Hcnt (t + p)). lia.
Qed.

(** More stock never leaves more orders unserved. *)
Lemma allocate_loop_mono (n : nat) s s' p r s1 u :
  r ≤ Z.of_nat (length s) → dominated s s' →
  allocate_loop (range_down (Z.of_nat n)) s p r = (s1, Ok u) →
  ∃ s1' u', allocate_loop (range_down (Z.of_nat n)) s' p r = (s1', Ok u') ∧ u' ≤ u.
Proof.
  revert s s'. induction n as [|n IH]; intros s s' Hr Hdom.
  { simpl. intros [= _ <-]. by eexists _, _. }
  rewrite range_down_pos by lia.
  replace (Z.of_nat (S n) - 1) with (Z.of_nat n) by lia.
  pose proof Hdom as [Hlen Hcnt].
  assert (r ≤ Z.of_nat (length s')) as Hr' by (by rewrite <- Hlen).
  destruct (decide (can_select s r)) as [Hsel|Hno];
    [|by rewrite allocate_loop_raise].
  pose proof (can_select_length s s' r Hlen Hsel) as Hsel'.
  destruct (allocate_loop_step s p r (Z.of_nat (S n)) (range_down (Z.of_nat n)) Hr Hsel)
    as (m & Hm & ->).
  destruct (allocate_loop_step s' p r (Z.of_nat (S n)) (range_down (Z.of_nat n)) Hr' Hsel')
    as (m' & Hm' & ->).
  destruct (Z.ltb_spec m p) as [Hlt|Hge].
  - intros [= _ <-]. destruct (Z.ltb_spec m' p); [by eexists _, _|].
    destruct (allocate_loop_returns (range_down (Z.of_nat n)) (after_order s' p r) p r)
      as (s1' & u' & Hrun).
    + by rewrite after_order_length.
    + eapply can_select_length; [|done]. by rewrite after_order_length.
    + exists s1', u'. split; [done|].
      apply allocate_loop_unmet_bounds in Hrun. lia.
  - assert (p ≤ m') as Hge'.
    { apply (min_chosen_ge s' p r m' Hr' Hsel' Hm').
      rewrite <- (chosen_places_length_eq s s' r Hlen Hr Hsel).
      apply (min_chosen_ge s p r m Hr Hsel Hm) in Hge.
      pose proof (Hcnt p). lia. }
    destruct (Z.ltb_spec m' p); [lia|].
    apply IH; [by rewrite after_order_length|].
    by apply dominated_after_order.
Qed.

End loop.

(** * The loops of [fulfil_orders] *)

Lemma for_each_app {A} (xs ys : list A) (body : A → M unit) (st : state) :
  for_each (xs ++ ys) body st = (for_each xs body ;; for_each ys body) st.
Proof.
  revert st. induction xs as [|x xs IH]; intros st; [done|].
  simpl. unfold mbind, M_bind in *.
  destruct (body x st) as [[[]| |] st']; [|done..]. apply IH.
Qed.

Lemma for_each_ext {A} (xs : list A) (body body' : A → M unit) (st : state) :
  (∀ x st, body x st = body' x st) →
  for_each xs body st = for_each xs body' st.
Proof.
  intros Hb. revert st. induction xs as [|x xs IH]; intros st; [done|].
  simpl. unfold mbind, M_bind. rewrite Hb.
  destruct (body' x st) as [[[]| |] st']; [|done..]. apply IH.
Qed.

Lemma for_each_bind {A B} (xs : list A) (f : A → list B)
    (body : B → M unit) (st : state) :
  for_each (xs ≫= f) body st = for_each xs (λ x, for_each (f x) body) st.
Proof.
  revert st. induction xs as [|x xs IH]; intros st; [done|].
  csimpl. rewrite for_each_app. unfold mbind at 1, M_bind at 1.
  unfold mbind at 2, M_bind at 1.
  destruct (for_each (f x) body st) as [[[]| |] st']; [|done..]. apply IH.
Qed.

Lemma for_each_singleton {A} (x : A) (body : A → M unit) (st : state) :
  for_each [x] body st = body x st.
Proof.
  simpl. unfold mbind, M_bind. by destruct (body x st) as [[[]| |] st'].
Qed.

Section flat.
Context `{ArgPartition}.

Lemma fulfil_loops_cells StockDF OrdersDF Ordersdict st :
  fulfil_loops StockDF OrdersDF Ordersdict st
  = for_each (cells OrdersDF) (at_cell StockDF OrdersDF Ordersdict) st.
Proof.
  unfold fulfil_loops, cells. rewrite for_each_bind.
  apply for_each_ext. intros j st1. rewrite for_each_bind.
  apply for_each_ext. intros i st2. rewrite for_each_bind.
  apply for_each_ext. intros k st3. by rewrite for_each_singleton.
Qed.

End flat.

(** * One cell *)

Section one_cell.
Context `{ArgPartition}.
Implicit Types (veg gou : list bool) (st : state) (p r N : Z).

Lemma cell_vegetarian veg gou OrdersDF Ordersdict i j k N p r st :
  reads OrdersDF Ordersdict i j k "vegetarian" N p r →
  cell veg gou OrdersDF Ordersdict i j k st =
    let sub := mask_get veg (stocks st) in
    let st1 := with_call st (Call VegetarianStock N sub p r) in
    match allocate_recipes N sub p r with
    | (stocks_left, Ok u) =>
        if 0 <? u then (Return false, st1)
        else (Next tt, {| stocks := mask_set veg (stocks st) stocks_left;
                          calls := calls st1 |})
    | (_, Raise e) => (Throw e, st1)
    end.
Proof.
  intros (H0 & H1 & H2 & H3). unfold cell. unfold_M. rewrite H0, H1, H2. simpl.
  rewrite H3. simpl.
  destruct (allocate_recipes N (mask_get veg (stocks st)) p r) as [s' [u|e]]; [|done].
  by destruct (0 <? u).
Qed.

Lemma cell_gourmet veg gou OrdersDF Ordersdict i j k N p r st :
  reads OrdersDF Ordersdict i j k "gourmet" N p r →
  cell veg gou OrdersDF Ordersdict i j k st =
    let sub := mask_get gou (stocks st) in
    let st1 := with_call st (Call GourmetStock N sub p r) in
    match allocate_recipes N sub p r with
    | (stocks_left, Ok u) =>
        if 0 <? u then
          let st2 := with_call st1 (Call AllStock u (stocks st) p r) in
          match allocate_recipes u (stocks st) p r with
          | (pool, Ok u2) =>
              (if 0 <? u2 then Return false else Next tt,
               {| stocks := pool; calls := calls st2 |})
          | (pool, Raise e) => (Throw e, {| stocks := pool; calls := calls st2 |})
          end
        else (Next tt, {| stocks := mask_set gou (stocks st) stocks_left;
                          calls := calls st1 |})
    | (_, Raise e) => (Throw e, st1)
    end.
Proof.
  intros (H0 & H1 & H2 & H3). unfold cell. unfold_M. rewrite H0, H1, H2. simpl.
  rewrite H3. simpl.
  destruct (allocate_recipes N (mask_get gou (stocks st)) p r) as [s' [u|e]]; [|done].
  destruct (0 <? u); [|done]. simpl.
  destruct (allocate_recipes u (stocks st) p r) as [s2 [u2|e]]; [|done].
  by destruct (0 <? u2).
Qed.

(** Every other way through the body leaves the state as it was. *)
Lemma cell_cases veg gou OrdersDF Ordersdict i j k st :
  (∃ N p r, reads OrdersDF Ordersdict i j k "vegetarian" N p r) ∨
  (∃ N p r, reads OrdersDF Ordersdict i j k "gourmet" N p r) ∨
  (∃ fl, cell veg gou OrdersDF Ordersdict i j k st = (fl, st)).
Proof.
  unfold reads, cell. unfold_M.
  destruct (axis0 Ordersdict !! i) as [category|]; [|right; right; by eexists].
  destruct (axis1 Ordersdict !! j) as [r|]; [|right; right; by eexists].
  destruct (axis2 Ordersdict !! k) as [p|]; [|right; right; by eexists].
  simpl. destruct (String.eqb_spec category "vegetarian") as [->|Hv].
  { destruct (lookup3 OrdersDF i j k) as [N|]; [|right; right; by eexists].
    left. by exists N, p, r. }
  destruct (String.eqb_spec category "gourmet") as [->|Hg].
  { destruct (lookup3 OrdersDF i j k) as [N|]; [|right; right; by eexists].
    right; left. by exists N, p, r. }
  right; right. by eexists.
Qed.

End one_cell.

(** * Properties of [allocate_recipes] *)

Section allocate_properties.
Context `{ArgPartition}.
Implicit Types (s : list Z) (p r N : Z).

Lemma allocate_recipes_loop N s p r :
  r ≤ Z.of_nat (length s) →
  allocate_recipes N s p r = allocate_loop (range_down N) s p r.
Proof.
  intros Hr. unfold allocate_recipes.
  by destruct (Z.ltb_spec (Z.of_nat (length s)) r); [lia|].
Qed.

Lemma allocate_recipes_nonneg N s p r :
  Forall (λ x, 0 ≤ x) s → Forall (λ x, 0 ≤ x) (allocate_recipes N s p r).1.
Proof.
  intros Hs. unfold allocate_recipes.
  destruct (Z.ltb_spec (Z.of_nat (length s)) r); [done|].
  by apply allocate_loop_nonneg.
Qed.

Lemma allocate_recipes_length N s p r :
  length (allocate_recipes N s p r).1 = length s.
Proof.
  unfold allocate_recipes.
  destruct (Z.ltb_spec (Z.of_nat (length s)) r) as [|Hr]; [done|].
  generalize (range_down N) as cs. intros cs. revert s Hr.
  induction cs as [|c cs IH]; intros s Hr; [done|].
  destruct (decide (can_select s r)) as [Hsel|Hno].
  - destruct (allocate_loop_step s p r c cs Hr Hsel) as (m & _ & ->).
    destruct (m <? p); [done|].
    rewrite IH; rewrite after_order_length; done.
  - by rewrite allocate_loop_raise.
Qed.

(** C5.  With fewer stock entries than recipes per box,
    [allocate_recipes] gives the stock back as it was, no entry changed,
    and the whole order count as unmet, whatever the order count and the
    portion size are. *)
Theorem allocate_recipes_too_few_recipes N s p r :
  Z.of_nat (length s) < r →
  allocate_recipes N s p r = (s, Ok N).
Proof.
  intros Hlen. unfold allocate_recipes.
  destruct (Z.ltb_spec (Z.of_nat (length s)) r) as [_|Hge].
  - reflexivity.
  - lia.
Qed.

(** C8.  Zero demand: [allocate_recipes 0 stock p r] gives the stock
    back unchanged with unmet count 0, for every stock, portion size and
    number of recipes per box, also when the stock has fewer entries
    than [r]. *)
Theorem allocate_recipes_zero_orders s p r :
  allocate_recipes 0 s p r = (s, Ok 0).
Proof.
  unfold allocate_recipes.
  destruct (Z.of_nat (length s) <? r).
  - reflexivity.
  - rewrite range_down_nonpos by lia. reflexivity.
Qed.

(** C7.  Monotonicity: raising one stock entry, everything else held
    fixed, never gives a larger unmet count: where the original call
    returns the count [u], the call on the raised stock returns a count
    of at most [u]. *)
Theorem allocate_recipes_monotone N s p r (i : nat) (x v : Z) s1 u :
  s !! i = Some x → x ≤ v →
  allocate_recipes N s p r = (s1, Ok u) →
  ∃ s1' u', allocate_recipes N (<[i := v]> s) p r = (s1', Ok u') ∧ u' ≤ u.
Proof.
  intros Hi Hv. unfold allocate_recipes. rewrite length_insert.
  destruct (Z.ltb_spec (Z.of_nat (length s)) r) as [Hlt|Hge].
  - intros [= _ <-]. eexists _, _. split; [done|lia].
  - intros Hrun.
    assert (range_down N = range_down (Z.of_nat (Z.to_nat N))) as HN.
    { destruct (Z.le_gt_cases N 0).
      - rewrite !range_down_nonpos; [done|lia..].
      - by rewrite Z2Nat.id by lia. }
    rewrite HN in Hrun |- *.
    eapply allocate_loop_mono; [done| |done].
    by eapply dominated_insert.
Qed.

(** C4, amended.  For [1 ≤ N_recipes ≤ len(stock_levels)] the orders
    are served one at a time, counting down from the order count: each
    time the [N_recipes] places with the greatest stock are chosen; if
    the least chosen entry is below the portion the call returns the
    stock as the completed orders left it, with the number of orders not
    yet served, the current one counted; otherwise the portion is taken
    from each chosen entry and the next order is served; when no order
    is left the unmet count is 0. *)
Theorem allocate_recipes_order_by_order N s p r :
  1 ≤ r ≤ Z.of_nat (length s) → order_by_order N s p r.
Proof.
  intros [Hr1 Hr]. split.
  - intros HN. rewrite allocate_recipes_loop by done.
    by rewrite range_down_nonpos.
  - intros HN.
    assert (can_select s r) as Hsel.
    { split; [|lia]. intros ->. simpl in Hr. lia. }
    pose proof Hsel as [Hs Hin].
    pose proof (pivot_place_lt s r Hs Hr Hin) as Hk.
    destruct (allocate_loop_step s p r N (range_down (N - 1)) Hr Hsel)
      as (m & Hm & Hstep).
    exists (chosen_places s r), m.
    pose proof (np_min_Ok _ _ Hm) as [Hmin Hall].
    rewrite Forall_forall in Hall.
    split_and!.
    + rewrite recipe_choices_eq by done. by rewrite !decide_False.
    + rewrite chosen_places_length by done. apply pivot_place_pos; lia.
    + by apply choices_NoDup.
    + intros i Hi. pose proof (choices_in_range s _ Hk) as Hrange.
      rewrite Forall_forall in Hrange. by apply Hrange.
    + intros i j Hi Hj Hno.
      apply (before_le_chosen s _ j i Hk); [|exact Hi].
      by apply not_chosen_before.
    + apply list_elem_of_fmap in Hmin as (i & -> & Hi). by exists i.
    + intros i Hi. apply Hall.
      by apply (list_elem_of_fmap_2 (λ i, s !!! i)).
    + intros Hlt. rewrite allocate_recipes_loop, range_down_pos, Hstep by done.
      by destruct (Z.ltb_spec m p); [|lia].
    + intros Hge. exists (after_order s p r).
      assert (∀ i, after_order s p r !!! i =
                   if decide (i ∈ chosen_places s r ∧ (i < length s)%nat)
                   then s !!! i - p else s !!! i) as Hlook.
      { intros i. unfold after_order. rewrite <- list_fmap_compose.
        apply put_idx_lookup_total. }
      split_and!.
      * apply after_order_length.
      * intros i Hi. rewrite Hlook, decide_True; [done|]. split; [done|].
        pose proof (choices_in_range s _ Hk) as Hrange.
        rewrite Forall_forall in Hrange. by apply Hrange.
      * intros i Hi. rewrite Hlook, decide_False; [done|]. by intros [? _].
      * rewrite !allocate_recipes_loop by (by rewrite ?after_order_length).
        rewrite range_down_pos, Hstep by done.
        by destruct (Z.ltb_spec m p); [lia|].
Qed.

End allocate_properties.

(** * Properties of [fulfil_orders] *)

Lemma mask_get_Forall (P : Z → Prop) (mask : list bool) (a : list Z) :
  Forall P a → Forall P (mask_get mask a).
Proof.
  intros Ha. revert mask. induction Ha as [|x a Hx _ IH]; intros [|b mask]; try done.
  simpl. destruct b; [constructor|]; auto.
Qed.

Lemma mask_set_Forall (P : Z → Prop) (mask : list bool) (a vals : list Z) :
  Forall P a → Forall P vals → Forall P (mask_set mask a vals).
Proof.
  intros Ha. revert mask vals.
  induction Ha as [|x a Hx Ha IH]; intros [|b mask] vals Hv; simpl; try done.
  - by constructor.
  - destruct b.
    + destruct Hv as [|v vals Hv1 Hv2]; constructor; auto.
    + constructor; auto.
Qed.

Lemma split_at_last {A} (l before after : list A) (c1 c : A) :
  l ++ [c1] = before ++ c :: after → c ∉ l → after = [] ∧ c = c1.
Proof.
  intros Heq Hc. destruct after as [|z after _] using rev_ind.
  - apply app_inj_tail in Heq as [_ ->]. done.
  - rewrite app_comm_cons, app_assoc in Heq.
    apply app_inj_tail in Heq as [-> _].
    destruct Hc. apply elem_of_app. right. by left.
Qed.

Section fulfil_properties.
Context `{ArgPartition}.
Implicit Types (st : state) (p r N : Z).

Lemma allocate_recipes_unmet_bounds N s p r s' u :
  0 ≤ N → allocate_recipes N s p r = (s', Ok u) → 0 ≤ u ≤ N.
Proof.
  intros HN. unfold allocate_recipes.
  destruct (Z.of_nat (length s) <? r).
  - intros [= _ <-]. lia.
  - rewrite <- (Z2Nat.id N) at 1 by done. intros Hrun.
    apply allocate_loop_unmet_bounds in Hrun. lia.
Qed.

Lemma at_cell_nonneg StockDF OrdersDF Ordersdict c st :
  state_nonneg st → state_nonneg (at_cell StockDF OrdersDF Ordersdict c st).2.
Proof.
  intros [Hs Hc]. destruct c as [[i j] k]. unfold at_cell. simpl.
  destruct (cell_cases (veg_mask StockDF) (gourmet_mask StockDF)
              OrdersDF Ordersdict i j k st)
    as [(N & p & r & Hread)|[(N & p & r & Hread)|[fl ->]]]; [| |done].
  - rewrite (cell_vegetarian _ _ _ _ _ _ _ _ _ _ _ Hread). simpl.
    pose proof (mask_get_Forall _ (veg_mask StockDF) _ Hs) as Hsub.
    pose proof (allocate_recipes_nonneg N _ p r Hsub) as Hres.
    assert (Forall (λ c, nonneg (call_stock c))
              (calls st ++ [Call VegetarianStock N
                  (mask_get (veg_mask StockDF) (stocks st)) p r])) as Hc'.
    { apply Forall_app. split; [done|]. by constructor. }
    destruct (allocate_recipes N _ p r) as [s' [u|e]]; [|done].
    destruct (0 <? u); [done|]. split; [|done].
    by apply mask_set_Forall.
  - rewrite (cell_gourmet _ _ _ _ _ _ _ _ _ _ _ Hread). simpl.
    pose proof (mask_get_Forall _ (gourmet_mask StockDF) _ Hs) as Hsub.
    pose proof (allocate_recipes_nonneg N _ p r Hsub) as Hres.
    assert (Forall (λ c, nonneg (call_stock c))
              (calls st ++ [Call GourmetStock N
                  (mask_get (gourmet_mask StockDF) (stocks st)) p r])) as Hc'.
    { apply Forall_app. split; [done|]. by constructor. }
    destruct (allocate_recipes N _ p r) as [s' [u|e]]; [|done].
    destruct (0 <? u).
    + pose proof (allocate_recipes_nonneg u _ p r Hs) as Hres2.
      assert (Forall (λ c, nonneg (call_stock c))
                ((calls st ++ [Call GourmetStock N
                    (mask_get (gourmet_mask StockDF) (stocks st)) p r])
                 ++ [Call AllStock u (stocks st) p r])) as Hc''.
      { apply Forall_app. split; [done|]. by constructor. }
      by destruct (allocate_recipes u (stocks st) p r) as [s2 [u2|e]].
    + split; [|done]. by apply mask_set_Forall.
Qed.

Lemma for_each_nonneg StockDF OrdersDF Ordersdict cs st :
  state_nonneg st →
  state_nonneg (for_each cs (at_cell StockDF OrdersDF Ordersdict) st).2.
Proof.
  revert st. induction cs as [|c cs IH]; intros st Hst; [done|].
  simpl. unfold mbind, M_bind.
  pose proof (at_cell_nonneg StockDF OrdersDF Ordersdict c st Hst) as Hc.
  destruct (at_cell StockDF OrdersDF Ordersdict c st) as [[[]| |] st']; [|done..].
  by apply IH.
Qed.

Lemma fulfil_orders_state StockDF OrdersDF Ordersdict :
  (fulfil_orders StockDF OrdersDF Ordersdict).2
  = (for_each (cells OrdersDF) (at_cell StockDF OrdersDF Ordersdict)
       (initial_state StockDF)).2.
Proof.
  unfold fulfil_orders. rewrite fulfil_loops_cells.
  by destruct (for_each _ _ _) as [[[]| |] st'].
Qed.

(** C3.  Non-negativity: when no stock count is negative on entry,
    [allocate_recipes] returns a stock with no negative entry, and in a
    run of [fulfil_orders] the [stocks] array has no negative entry
    after any number of cells, nor when the run ends, whatever it
    returns (the pool a failed run leaves behind included), nor has any
    array that a call of [allocate_recipes] is handed. *)
Theorem stock_never_negative (StockDF : list recipe_row)
    (OrdersDF : list (list (list Z))) (Ordersdict : axes)
    N s p r (n : nat) :
  nonneg (stock_count <$> StockDF) → nonneg s →
  nonneg (allocate_recipes N s p r).1 ∧
  state_nonneg (for_each (take n (cells OrdersDF))
                  (at_cell StockDF OrdersDF Ordersdict) (initial_state StockDF)).2 ∧
  state_nonneg (fulfil_orders StockDF OrdersDF Ordersdict).2.
Proof.
  intros Hstock Hs.
  assert (state_nonneg (initial_state StockDF)) as Hinit.
  { split; [exact Hstock|constructor]. }
  split; [|split].
  - by apply allocate_recipes_nonneg.
  - by apply for_each_nonneg.
  - rewrite fulfil_orders_state. by apply for_each_nonneg.
Qed.

End fulfil_properties.

Section cascade.
Context `{ArgPartition}.
Implicit Types (st : state) (p r N : Z).

Lemma no_failure_stopped fl st : no_failure (calls st) → stopped_at_failure fl st.
Proof.
  intros Hno before c after Heq Hbad.
  unfold no_failure in Hno. rewrite Forall_forall in Hno.
  destruct (Hno c); [|done]. rewrite Heq. apply elem_of_app. right. by left.
Qed.

Lemma at_cell_cascade StockDF OrdersDF Ordersdict c st :
  no_failure (calls st) →
  match at_cell StockDF OrdersDF Ordersdict c st with
  | (Next _, st') => no_failure (calls st')
  | (fl, st') => stopped_at_failure fl st'
  end.
Proof.
  intros Hno. destruct c as [[i j] k]. unfold at_cell. simpl.
  destruct (cell_cases (veg_mask StockDF) (gourmet_mask StockDF)
              OrdersDF Ordersdict i j k st)
    as [(N & p & r & Hread)|[(N & p & r & Hread)|[fl ->]]].
  - rewrite (cell_vegetarian _ _ _ _ _ _ _ _ _ _ _ Hread). simpl.
    set (c1 := Call VegetarianStock N (mask_get (veg_mask StockDF) (stocks st)) p r).
    destruct (allocate_recipes N (mask_get (veg_mask StockDF) (stocks st)) p r)
      as [s' [u|e]] eqn:Hrun.
    + destruct (Z.ltb_spec 0 u) as [Hu|Hu].
      * intros before c after Heq Hbad. simpl in Heq.
        apply split_at_last in Heq as [-> _]; [done|].
        intros Hin. unfold no_failure in Hno. rewrite Forall_forall in Hno.
        by apply (Hno c).
      * simpl. apply Forall_app. split; [done|]. constructor; [|done].
        intros (_ & u' & (s'' & Hrun') & Hu'). simpl in Hrun'.
        rewrite Hrun in Hrun'. simplify_eq. lia.
    + apply no_failure_stopped. simpl. apply Forall_app. split; [done|].
      constructor; [|done].
      intros (_ & u' & (s'' & Hrun') & Hu'). simpl in Hrun'.
      rewrite Hrun in Hrun'. simplify_eq.
  - rewrite (cell_gourmet _ _ _ _ _ _ _ _ _ _ _ Hread). simpl.
    set (c1 := Call GourmetStock N (mask_get (gourmet_mask StockDF) (stocks st)) p r).
    assert (no_failure (calls st ++ [c1])) as Hno1.
    { apply Forall_app. split; [done|]. constructor; [|done]. by intros [? _]. }
    destruct (allocate_recipes N (mask_get (gourmet_mask StockDF) (stocks st)) p r)
      as [s' [u|e]]; [|by apply no_failure_stopped].
    destruct (0 <? u); [|done].
    assert (no_failure ((calls st ++ [c1]) ++ [Call AllStock u (stocks st) p r]))
      as Hno2.
    { apply Forall_app. split; [done|]. constructor; [|done]. by intros [? _]. }
    destruct (allocate_recipes u (stocks st) p r) as [s2 [u2|e]];
      [|by apply no_failure_stopped].
    destruct (0 <? u2); [by apply no_failure_stopped|done].
  - destruct fl as [[]| |]; [done|by apply no_failure_stopped..].
Qed.

Lemma for_each_cascade StockDF OrdersDF Ordersdict cs st :
  no_failure (calls st) →
  match for_each cs (at_cell StockDF OrdersDF Ordersdict) st with
  | (Next _, st') => no_failure (calls st')
  | (fl, st') => stopped_at_failure fl st'
  end.
Proof.
  revert st. induction cs as [|c cs IH]; intros st Hno; [done|].
  simpl. unfold mbind, M_bind.
  pose proof (at_cell_cascade StockDF OrdersDF Ordersdict c st Hno) as Hc.
  destruct (at_cell StockDF OrdersDF Ordersdict c st) as [[[]| |] st']; [|done..].
  by apply IH.
Qed.

(** C6.  Cascade short-circuit: if in a run of [fulfil_orders] a call
    of [allocate_recipes] on the vegetarian stock comes back with an
    unmet count above 0, the run returns [False] and that call is the
    last one made: no call for a later cell, and no second call on the
    whole pool for this cell. *)
Theorem vegetarian_failure_stops_run (StockDF : list recipe_row)
    (OrdersDF : list (list (list Z))) (Ordersdict : axes)
    (res : result bool) st (before after : list call) (c : call) (u : Z) :
  fulfil_orders StockDF OrdersDF Ordersdict = (res, st) →
  calls st = before ++ c :: after →
  call_pool c = VegetarianStock → unmet_after c u → 0 < u →
  res = Ok false ∧ after = [].
Proof.
  intros Hrun Hcalls Hpool Hunmet Hu.
  assert (failed_vegetarian c) as Hbad by (split; [done|by exists u]).
  unfold fulfil_orders in Hrun. rewrite fulfil_loops_cells in Hrun.
  pose proof (for_each_cascade StockDF OrdersDF Ordersdict (cells OrdersDF)
                (initial_state StockDF)) as Hcascade.
  destruct (for_each (cells OrdersDF) (at_cell StockDF OrdersDF Ordersdict)
              (initial_state StockDF)) as [[[]|b|e] st'];
    injection Hrun as <- <-.
  - assert (stopped_at_failure (Next tt) st') as Hstop.
    { apply no_failure_stopped, Hcascade. constructor. }
    by destruct (Hstop before c after Hcalls Hbad).
  - destruct (Hcascade ltac:(constructor) before c after Hcalls Hbad) as [[= ->] ->].
    done.
  - by destruct (Hcascade ltac:(constructor) before c after Hcalls Hbad).
Qed.

(** C1.  A gourmet cell is first tried on the gourmet stock alone; when
    that call leaves [u > 0] orders unmet, exactly these [u] orders are
    tried again on the whole pool, vegetarian entries included, with the
    same portion size and recipes per box.  If the second call leaves
    orders unmet the run returns [False] at once; if it leaves none, the
    pool it returns replaces the whole of [stocks], and the remaining
    cells run from it. *)
Theorem gourmet_fallback_on_whole_pool (StockDF : list recipe_row)
    (OrdersDF : list (list (list Z))) (Ordersdict : axes)
    (i j k : nat) (pre rest : list (nat * nat * nat)) st0 st N p r s1 u s2 u2 :
  for_each pre (at_cell StockDF OrdersDF Ordersdict) st0 = (Next tt, st) →
  reads OrdersDF Ordersdict i j k "gourmet" N p r →
  allocate_recipes N (mask_get (gourmet_mask StockDF) (stocks st)) p r = (s1, Ok u) →
  0 < u →
  allocate_recipes u (stocks st) p r = (s2, Ok u2) →
  let first := Call GourmetStock N (mask_get (gourmet_mask StockDF) (stocks st)) p r in
  let retry := Call AllStock u (stocks st) p r in
  let st' := {| stocks := s2; calls := calls st ++ [first; retry] |} in
  0 ≤ u2 ≤ u ∧
  (0 < u2 →
     for_each (pre ++ (i, j, k) :: rest) (at_cell StockDF OrdersDF Ordersdict) st0
     = (Return false, st')) ∧
  (u2 = 0 →
     for_each (pre ++ (i, j, k) :: rest) (at_cell StockDF OrdersDF Ordersdict) st0
     = for_each rest (at_cell StockDF OrdersDF Ordersdict) st').
Proof.
  intros Hpre Hread Hfirst Hu Hretry first retry st'.
  assert (at_cell StockDF OrdersDF Ordersdict (i, j, k) st
          = (if 0 <? u2 then Return false else Next tt, st')) as Hcell.
  { unfold at_cell. simpl.
    rewrite (cell_gourmet _ _ _ _ _ _ _ _ _ _ _ Hread). simpl.
    rewrite Hfirst. destruct (Z.ltb_spec 0 u); [|lia].
    rewrite Hretry. unfold st', first, retry. simpl.
    by rewrite <- app_assoc. }
  split; [|split].
  - apply (allocate_recipes_unmet_bounds u (stocks st) p r s2 u2); [lia|done].
  - intros Hu2. rewrite for_each_app. unfold mbind at 1, M_bind at 1.
    rewrite Hpre. simpl. unfold mbind, M_bind. rewrite Hcell.
    by destruct (Z.ltb_spec 0 u2); [|lia].
  - intros ->. rewrite for_each_app. unfold mbind at 1, M_bind at 1.
    rewrite Hpre. simpl. unfold mbind, M_bind. rewrite Hcell. done.
Qed.

(** C10.  A gourmet attempt that fails leaves the shared pool as it
    was: the call on the gourmet stock works on a copy and changes
    nothing in [stocks]; the second call is handed [stocks] exactly as
    it stood before the attempt, and what [stocks] holds afterwards is
    what that second call makes of it: the stock the failed attempt had
    taken for its completed orders is written nowhere. *)
Theorem failed_gourmet_attempt_leaves_pool (StockDF : list recipe_row)
    (OrdersDF : list (list (list Z))) (Ordersdict : axes)
    (i j k : nat) st N p r s1 u :
  reads OrdersDF Ordersdict i j k "gourmet" N p r →
  allocate_recipes N (mask_get (gourmet_mask StockDF) (stocks st)) p r = (s1, Ok u) →
  0 < u →
  let first := Call GourmetStock N (mask_get (gourmet_mask StockDF) (stocks st)) p r in
  call_on_copy first st = (Next (s1, u), with_call st first) ∧
  stocks (with_call st first) = stocks st ∧
  ∃ fl st',
    at_cell StockDF OrdersDF Ordersdict (i, j, k) st = (fl, st') ∧
    calls st' = calls st ++ [first; Call AllStock u (stocks st) p r] ∧
    stocks st' = (allocate_recipes u (stocks st) p r).1.
Proof.
  intros Hread Hfirst Hu first. split; [|split].
  - unfold call_on_copy, with_call. unfold_M. subst first. simpl.
    by rewrite Hfirst.
  - done.
  - subst first. unfold at_cell. simpl.
    rewrite (cell_gourmet _ _ _ _ _ _ _ _ _ _ _ Hread). simpl.
    rewrite Hfirst. destruct (Z.ltb_spec 0 u); [|lia].
    destruct (allocate_recipes u (stocks st) p r) as [s2 [u2|e]];
      eexists _, _; (split; [done|]); simpl; by rewrite <- app_assoc.
Qed.

End cascade.

(** * [obtain_numbers] *)

Lemma numberdict_lookup (w : string) :
  numberdict !! w =
    if decide (w = "two") then Some 2
    else if decide (w = "three") then Some 3
    else if decide (w = "four") then Some 4
    else None.
Proof.
  unfold numberdict.
  destruct (decide (w = "two")) as [->|H2]; [by rewrite lookup_insert_eq|].
  rewrite lookup_insert_ne by done.
  destruct (decide (w = "three")) as [->|H3]; [by rewrite lookup_insert_eq|].
  rewrite lookup_insert_ne by done.
  destruct (decide (w = "four")) as [->|H4]; [by rewrite lookup_insert_eq|].
  rewrite lookup_insert_ne by done. apply lookup_empty.
Qed.

Lemma split_cons (sep : ascii) (s : string) : ∃ w ws, split sep s = w :: ws.
Proof.
  induction s as [|c s (w & ws & IH)]; simpl; [by eexists _, _|].
  destruct (Ascii.eqb c sep); [by eexists _, _|].
  rewrite IH. by eexists _, _.
Qed.

Lemma first_segment_no_underscore (s : string) :
  has_underscore s = false → first_segment s = s.
Proof.
  unfold first_segment. induction s as [|c s IH]; simpl; [done|].
  intros [Hc Hs]%orb_false_elim. rewrite Hc.
  specialize (IH Hs). destruct (split_cons "_" s) as (w & ws & Hw).
  rewrite Hw in IH |- *. simpl in *. by rewrite IH.
Qed.

Lemma first_segment_before_underscore (w rest : string) :
  has_underscore w = false →
  first_segment (String.append w (String "_" rest)) = w.
Proof.
  unfold first_segment. induction w as [|c w IH]; simpl; [done|].
  intros [Hc Hw]%orb_false_elim. rewrite Hc.
  specialize (IH Hw).
  destruct (split_cons "_" (String.append w (String "_" rest))) as (x & xs & Hx).
  rewrite Hx in IH |- *. simpl in *. by rewrite IH.
Qed.

(** C9, amended.  [obtain_numbers] looks only at the text before the
    first underscore of a string, which is the whole string when it has
    no underscore: when that text is "two", "three" or "four" the result
    is the integer 2, 3 or 4; every other string, and every input that
    is not a string, comes back unchanged. *)
Theorem obtain_numbers_by_first_segment :
  (∀ w rest, has_underscore w = false →
     first_segment (String.append w (String "_" rest)) = w) ∧
  (∀ s, has_underscore s = false → first_segment s = s) ∧
  (∀ s, first_segment s = "two" → obtain_numbers (PyStr s) = PyInt 2) ∧
  (∀ s, first_segment s = "three" → obtain_numbers (PyStr s) = PyInt 3) ∧
  (∀ s, first_segment s = "four" → obtain_numbers (PyStr s) = PyInt 4) ∧
  (∀ s, first_segment s ≠ "two" → first_segment s ≠ "three" →
        first_segment s ≠ "four" → obtain_numbers (PyStr s) = PyStr s) ∧
  (∀ n, obtain_numbers (PyInt n) = PyInt n) ∧
  obtain_numbers PyNone = PyNone.
Proof.
  split_and!; try done.
  - apply first_segment_before_underscore.
  - apply first_segment_no_underscore.
  - intros s Hs. unfold obtain_numbers. fold (first_segment s).
    by rewrite Hs.
  - intros s Hs. unfold obtain_numbers. fold (first_segment s).
    by rewrite Hs.
  - intros s Hs. unfold obtain_numbers. fold (first_segment s).
    by rewrite Hs.
  - intros s H2 H3 H4. unfold obtain_numbers. fold (first_segment s).
    rewrite numberdict_lookup. by rewrite !decide_False.
Qed.

(** C9 as stated fails on a bare word: "two" has no underscore, and
    comes back as the integer 2, not as the string. *)
Lemma obtain_numbers_bare_word :
  has_underscore "two" = false ∧
  obtain_numbers (PyStr "two") = PyInt 2 ∧
  ¬ label_rule_as_stated (PyStr "two").
Proof.
  split; [reflexivity|]. split; [reflexivity|].
  unfold label_rule_as_stated. simpl. intros Heq. discriminate Heq.
Qed.

(** * The order of the cells *)

(** C2 at a concrete orders file.  Loaded from the documented layout,
    axis 1 of the table holds the recipes-per-box labels and axis 2 the
    portion sizes; the outer loop runs over axis 1, so the vegetarian
    cell of portion size 2 with 3 recipes per box is allocated before
    the vegetarian cell of portion size 4 with 2 recipes per box. *)
Theorem smaller_portion_allocated_first :
  ∃ OrdersDF Ordersdict,
    load_orders orders_example = Some (OrdersDF, Ordersdict) ∧
    axis1 Ordersdict = [3; 2] ∧ axis2 Ordersdict = [4; 2] ∧
    (fulfil_orders stock_example OrdersDF Ordersdict).1 = Ok true ∧
    call_cell <$> calls (fulfil_orders stock_example OrdersDF Ordersdict).2 =
      [ (VegetarianStock, 4, 3); (VegetarianStock, 2, 3);
        (GourmetStock, 4, 3); (GourmetStock, 2, 3);
        (VegetarianStock, 4, 2); (VegetarianStock, 2, 2);
        (GourmetStock, 4, 2); (GourmetStock, 2, 2) ].
Proof.
  eexists _, _. split; [vm_compute; reflexivity|].
  split; [reflexivity|]. split; [reflexivity|].
  split; vm_compute; reflexivity.
Qed.

(** * The theorems at concrete inputs *)

Lemma allocate_recipes_too_few_recipes_witness :
  allocate_recipes 3 [5; 7] 2 3 = ([5; 7], Ok 3).
Proof.
  apply (allocate_recipes_too_few_recipes 3 [5; 7] 2 3). simpl. lia.
Defined.

Lemma allocate_recipes_monotone_witness :
  ∃ s1' u', allocate_recipes 3 (<[2%nat := 10]> [5; 7; 1]) 2 2 = (s1', Ok u') ∧ u' ≤ 1.
Proof.
  apply (allocate_recipes_monotone 3 [5; 7; 1] 2 2 2 1 10 [1; 3; 1] 1).
  - reflexivity.
  - lia.
  - vm_compute. reflexivity.
Defined.

Lemma allocate_recipes_order_by_order_witness :
  order_by_order 3 [5; 7; 1] 2 2.
Proof.
  apply (allocate_recipes_order_by_order 3 [5; 7; 1] 2 2). simpl. lia.
Defined.

(** C4 as stated fails for zero recipes per box: [stock_levels[-0:]] is
    the whole array, so the one entry of the stock is chosen and
    lowered, where no entry should be. *)
Lemma zero_recipes_selects_everything :
  recipe_choices [5] 0 = Ok [0%nat] ∧
  allocate_recipes 1 [5] 2 0 = ([3], Ok 0) ∧
  ¬ order_by_order 1 [5] 2 0.
Proof.
  split; [vm_compute; reflexivity|]. split; [vm_compute; reflexivity|].
  intros [_ Hserve]. destruct Hserve as (choices & m & Hc & Hlen & _); [lia|].
  vm_compute in Hc. injection Hc as <-. simpl in Hlen. lia.
Qed.

Lemma stock_never_negative_witness :
  nonneg (allocate_recipes 3 [5; 7; 1] 2 2).1 ∧
  state_nonneg (for_each (take 1 (cells table_fallback))
                  (at_cell stock_fallback table_fallback axes_fallback)
                  (initial_state stock_fallback)).2 ∧
  state_nonneg (fulfil_orders stock_fallback table_fallback axes_fallback).2.
Proof.
  apply (stock_never_negative stock_fallback table_fallback axes_fallback
           3 [5; 7; 1] 2 2 1).
  - unfold nonneg. simpl. repeat (constructor; [lia|]). constructor.
  - unfold nonneg. repeat (constructor; [lia|]). constructor.
Defined.

Lemma vegetarian_failure_stops_run_witness :
  (fulfil_orders stock_short table_short axes_short).1 = Ok false ∧
  drop 1 (calls (fulfil_orders stock_short table_short axes_short).2) = [].
Proof.
  apply (vegetarian_failure_stops_run stock_short table_short axes_short
           (fulfil_orders stock_short table_short axes_short).1
           (fulfil_orders stock_short table_short axes_short).2
           []
           (drop 1 (calls (fulfil_orders stock_short table_short axes_short).2))
           (Call VegetarianStock 1 [1; 1] 2 2) 1).
  - apply surjective_pairing.
  - vm_compute. reflexivity.
  - reflexivity.
  - exists [1; 1]. vm_compute. reflexivity.
  - lia.
Defined.

Lemma gourmet_fallback_on_whole_pool_witness :
  for_each [(0, 0, 0); (1, 0, 0)]%nat
    (at_cell stock_fallback table_fallback axes_fallback)
    (initial_state stock_fallback)
  = (Next tt,
     {| stocks := [10; 10; 8; 6];
        calls := [ Call VegetarianStock 0 [10; 10] 4 2;
                   Call GourmetStock 3 [12; 10] 4 2;
                   Call AllStock 1 [10; 10; 12; 10] 4 2 ] |}).
Proof.
  pose proof (gourmet_fallback_on_whole_pool
                stock_fallback table_fallback axes_fallback 1 0 0
                [(0, 0, 0)%nat] [] (initial_state stock_fallback)
                {| stocks := [10; 10; 12; 10];
                   calls := [Call VegetarianStock 0 [10; 10] 4 2] |}
                3 4 2 [4; 2] 1 [10; 10; 8; 6] 0) as Hthm.
  destruct Hthm as (_ & _ & Hgo).
  - vm_compute. reflexivity.
  - repeat split.
  - vm_compute. reflexivity.
  - lia.
  - vm_compute. reflexivity.
  - exact (Hgo eq_refl).
Defined.

Lemma failed_gourmet_attempt_leaves_pool_witness :
  ∃ fl st',
    at_cell stock_fallback table_fallback axes_fallback (1, 0, 0)%nat
      (initial_state stock_fallback) = (fl, st') ∧
    calls st' = [ Call GourmetStock 3 [12; 10] 4 2;
                  Call AllStock 1 [10; 10; 12; 10] 4 2 ] ∧
    stocks st' = (allocate_recipes 1 [10; 10; 12; 10] 4 2).1.
Proof.
  pose proof (failed_gourmet_attempt_leaves_pool
                stock_fallback table_fallback axes_fallback 1 0 0
                (initial_state stock_fallback) 3 4 2 [4; 2] 1) as Hthm.
  destruct Hthm as (_ & _ & Hcell).
  - repeat split.
  - vm_compute. reflexivity.
  - lia.
  - exact Hcell.
Defined.

(** * Further properties of [allocate_recipes] *)

#[global] Instance total_Permutation : Proper ((≡ₚ) ==> (=)) total.
Proof.
  intros s1 s2 Hs. unfold total.
  induction Hs as [|x s1 s2 _ IH|x y s|s1 s2 s3 _ IH1 _ IH2]; simpl; lia.
Qed.

Lemma total_app (s1 s2 : list Z) : total (s1 ++ s2) = total s1 + total s2.
Proof. unfold total. induction s1 as [|x s1 IH]; simpl; lia. Qed.

Lemma total_fmap_sub (p : Z) (s : list Z) :
  total ((λ x, x - p) <$> s) = total s - Z.of_nat (length s) * p.
Proof. unfold total. induction s as [|x s IH]; csimpl; lia. Qed.

Lemma total_nonneg (s : list Z) : nonneg s → 0 ≤ total s.
Proof. unfold total. induction 1 as [|x s Hx _ IH]; simpl; lia. Qed.

Section allocate_more.
Context `{ArgPartition}.
Implicit Types (s : list Z) (p r N : Z).

Lemma total_after_order s p r :
  r ≤ Z.of_nat (length s) → can_select s r →
  total (after_order s p r)
  = total s - Z.of_nat (length (chosen_places s r)) * p.
Proof.
  intros Hr [Hs Hin].
  pose proof (pivot_place_lt s r Hs Hr Hin) as Hk.
  pose proof (total_Permutation _ _ (stock_split_after s _ p Hk)) as Hafter.
  pose proof (total_Permutation _ _ (stock_split s _ Hk)) as Hbefore.
  rewrite total_app in Hafter, Hbefore.
  rewrite total_fmap_sub, length_fmap in Hafter.
  unfold after_order, chosen_places. lia.
Qed.

Lemma allocate_loop_total (n : nat) s p r s' u :
  r ≤ Z.of_nat (length s) →
  allocate_loop (range_down (Z.of_nat n)) s p r = (s', Ok u) →
  total s' = total s
             - (Z.of_nat n - u) * Z.of_nat (length s - pivot_place (length s) r) * p.
Proof.
  revert s. induction n as [|n IH]; intros s Hr.
  { simpl. intros [= <- <-]. lia. }
  rewrite range_down_pos by lia.
  replace (Z.of_nat (S n) - 1) with (Z.of_nat n) by lia.
  destruct (decide (can_select s r)) as [Hsel|Hno];
    [|by rewrite allocate_loop_raise].
  destruct (allocate_loop_step s p r (Z.of_nat (S n)) (range_down (Z.of_nat n)) Hr Hsel)
    as (m & _ & ->).
  destruct (m <? p).
  - intros [= <- <-]. lia.
  - intros Hrun. apply IH in Hrun; [|by rewrite after_order_length].
    rewrite Hrun, after_order_length, total_after_order by done.
    rewrite chosen_places_length by done. lia.
Qed.

Lemma allocate_loop_stock_le (cs : list Z) s p r (i : nat) :
  r ≤ Z.of_nat (length s) → 0 ≤ p →
  (allocate_loop cs s p r).1 !!! i ≤ s !!! i.
Proof.
  intros Hr Hp. revert s Hr. induction cs as [|c cs IH]; intros s Hr; [done|].
  destruct (decide (can_select s r)) as [Hsel|Hno];
    [|by rewrite allocate_loop_raise].
  destruct (allocate_loop_step s p r c cs Hr Hsel) as (m & _ & ->).
  destruct (m <? p); [done|].
  etrans; [apply IH; by rewrite after_order_length|].
  unfold after_order. rewrite <- list_fmap_compose, put_idx_lookup_total.
  case_decide; simpl; lia.
Qed.

Lemma allocate_loop_enough (n : nat) s p r :
  r ≤ Z.of_nat (length s) → can_select s r → 0 ≤ p →
  (length (chosen_places s r) ≤ cnt (Z.of_nat n * p) s)%nat →
  ∃ s', allocate_loop (range_down (Z.of_nat n)) s p r = (s', Ok 0).
Proof.
  intros Hr Hsel Hp. revert s Hr Hsel.
  induction n as [|n IH]; intros s Hr Hsel Hcnt; [by eexists|].
  rewrite range_down_pos by lia.
  replace (Z.of_nat (S n) - 1) with (Z.of_nat n) by lia.
  destruct (allocate_loop_step s p r (Z.of_nat (S n)) (range_down (Z.of_nat n)) Hr Hsel)
    as (m & Hm & ->).
  pose proof (cnt_mono_threshold p (Z.of_nat (S n) * p) s ltac:(nia)) as Hmono.
  assert (p ≤ m) as Hge by (apply (min_chosen_ge s p r m Hr Hsel Hm); lia).
  destruct (Z.ltb_spec m p); [lia|].
  assert (can_select (after_order s p r) r) as Hsel'.
  { eapply can_select_length; [|done]. by rewrite after_order_length. }
  apply IH; [by rewrite after_order_length|done|].
  rewrite <- (chosen_places_length_eq s (after_order s p r) r)
    by (by rewrite ?after_order_length).
  rewrite cnt_after_order by done.
  replace (Z.of_nat n * p + p) with (Z.of_nat (S n) * p) by lia.
  pose proof (cnt_mono_threshold (Z.of_nat n * p) (Z.of_nat (S n) * p) s ltac:(nia)).
  lia.
Qed.

Lemma allocate_loop_more_orders (n : nat) (d : Z) s p r s' u :
  0 ≤ d → 0 < u →
  allocate_loop (range_down (Z.of_nat n)) s p r = (s', Ok u) →
  allocate_loop (range_down (Z.of_nat n + d)) s p r = (s', Ok (u + d)).
Proof.
  intros Hd Hu. revert s. induction n as [|n IH]; intros s.
  { simpl. intros [= _ <-]. lia. }
  rewrite (range_down_pos (Z.of_nat (S n))) by lia.
  rewrite (range_down_pos (Z.of_nat (S n) + d)) by lia.
  replace (Z.of_nat (S n) - 1) with (Z.of_nat n) by lia.
  replace (Z.of_nat (S n) + d - 1) with (Z.of_nat n + d) by lia.
  simpl. destruct (recipe_choices s r) as [choices|]; [|done].
  destruct (take_idx s choices) as [chosen|]; [|done].
  destruct (np_min chosen) as [m|]; [|done].
  destruct (m <? p).
  - by intros [= <- <-].
  - apply IH.
Qed.

Lemma allocate_loop_split (n1 : nat) (N2 : Z) s p r s1 :
  0 ≤ N2 →
  allocate_loop (range_down (Z.of_nat n1)) s p r = (s1, Ok 0) →
  allocate_loop (range_down (Z.of_nat n1 + N2)) s p r
  = allocate_loop (range_down N2) s1 p r.
Proof.
  intros HN2. revert s. induction n1 as [|n1 IH]; intros s.
  { simpl. by intros [= <-]. }
  rewrite (range_down_pos (Z.of_nat (S n1))) by lia.
  rewrite (range_down_pos (Z.of_nat (S n1) + N2)) by lia.
  replace (Z.of_nat (S n1) - 1) with (Z.of_nat n1) by lia.
  replace (Z.of_nat (S n1) + N2 - 1) with (Z.of_nat n1 + N2) by lia.
  simpl. destruct (recipe_choices s r) as [choices|]; [|done].
  destruct (take_idx s choices) as [chosen|]; [|done].
  destruct (np_min chosen) as [m|]; [|done].
  destruct (m <? p).
  - by intros [=].
  - apply IH.
Qed.

End allocate_more.

Section allocate_extras.
Context `{ArgPartition}.
Implicit Types (s : list Z) (p r N : Z).

Lemma range_down_of_nat N : range_down N = range_down (Z.of_nat (Z.to_nat N)).
Proof.
  destruct (Z.le_gt_cases N 0).
  - rewrite !range_down_nonpos; [done|lia..].
  - by rewrite Z2Nat.id by lia.
Qed.

Lemma allocate_recipes_total N s p r s' u :
  1 ≤ r → 0 ≤ N → allocate_recipes N s p r = (s', Ok u) →
  total s' = total s - (N - u) * r * p.
Proof.
  intros Hr HN. unfold allocate_recipes.
  destruct (Z.ltb_spec (Z.of_nat (length s)) r) as [Hlt|Hge].
  - intros [= <- <-]. lia.
  - rewrite range_down_of_nat. intros Hrun.
    apply allocate_loop_total in Hrun; [|done].
    rewrite Hrun, Z2Nat.id by done.
    replace (Z.of_nat (length s - pivot_place (length s) r)) with r; [done|].
    symmetry. apply pivot_place_pos; lia.
Qed.

(** X1.  [allocate_recipes] raises in one situation only: an order is
    to be served, the guard of line 52 is passed, and the stock is empty
    or [- N_recipes] lies past its end (so [N_recipes ≤ 0]); the
    exception is [ValueError] and the stock is as it was.  In every
    other case it returns a stock and a count. *)
Theorem allocate_recipes_raises_exactly N s p r :
  (0 < N ∧ r ≤ Z.of_nat (length s) ∧ (s = [] ∨ Z.of_nat (length s) ≤ - r) →
     allocate_recipes N s p r = (s, Raise ValueError)) ∧
  (¬ (0 < N ∧ r ≤ Z.of_nat (length s) ∧ (s = [] ∨ Z.of_nat (length s) ≤ - r)) →
     ∃ s' u, allocate_recipes N s p r = (s', Ok u)) ∧
  (1 ≤ r → ∃ s' u, allocate_recipes N s p r = (s', Ok u)).
Proof.
  assert (¬ (0 < N ∧ r ≤ Z.of_nat (length s) ∧ (s = [] ∨ Z.of_nat (length s) ≤ - r)) →
          ∃ s' u, allocate_recipes N s p r = (s', Ok u)) as Hreturns.
  { intros Hno. unfold allocate_recipes.
    destruct (Z.ltb_spec (Z.of_nat (length s)) r) as [Hlt|Hge]; [by eexists _, _|].
    destruct (Z.le_gt_cases N 0) as [HN|HN].
    { rewrite range_down_nonpos by done. by eexists _, _. }
    apply allocate_loop_returns; [done|]. split.
    - intros ->. apply Hno. split_and!; [lia|done|by left].
    - intros Hout. apply Hno. split_and!; [lia|done|by right]. }
  split_and!; [|done|].
  - intros (HN & Hr & Hsel). rewrite allocate_recipes_loop, range_down_pos by done.
    apply allocate_loop_raise; [done|]. intros [Hs Hin]. by destruct Hsel.
  - intros Hr. apply Hreturns. intros (_ & Hle & [->|Hout]); simpl in *; lia.
Qed.

(** X2.  For a non-negative order count, the unmet count returned is
    between 0 and the order count, and the stock returned has as many
    entries as the stock given. *)
Theorem allocate_recipes_unmet_range N s p r s' u :
  0 ≤ N → allocate_recipes N s p r = (s', Ok u) →
  0 ≤ u ≤ N ∧ length s' = length s.
Proof.
  intros HN Hrun. split.
  - by eapply allocate_recipes_unmet_bounds.
  - pose proof (allocate_recipes_length N s p r) as Hlen.
    by rewrite Hrun in Hlen.
Qed.

(** X3.  Conservation: with at least one recipe per box, every order
    served takes exactly [N_recipes] times the portion out of the stock,
    and nothing else changes the total: the total returned is the total
    given less (orders served) * [N_recipes] * [N_portions]. *)
Theorem allocate_recipes_conservation N s p r s' u :
  1 ≤ r → 0 ≤ N → allocate_recipes N s p r = (s', Ok u) →
  total s' = total s - (N - u) * r * p.
Proof. intros Hr HN Hrun. by apply allocate_recipes_total. Qed.

(** X4.  Enough stock: when at least [N_recipes] entries hold
    [N_orders] portions each, every order is served. *)
Theorem allocate_recipes_enough_stock N s p r :
  1 ≤ r → 0 ≤ p → 0 ≤ N → r ≤ Z.of_nat (cnt (N * p) s) →
  ∃ s', allocate_recipes N s p r = (s', Ok 0).
Proof.
  intros Hr Hp HN Hcnt. pose proof (cnt_le_length (N * p) s) as Hlen.
  rewrite allocate_recipes_loop by lia. rewrite range_down_of_nat.
  assert (can_select s r) as Hsel.
  { split; [|lia]. intros ->. simpl in Hlen. lia. }
  apply allocate_loop_enough; [lia|done|done|].
  rewrite chosen_places_length by (done || lia).
  rewrite Z2Nat.id by done.
  pose proof (pivot_place_pos s r ltac:(lia) ltac:(lia)). lia.
Qed.

(** X5.  Orders that do not fit stay unmet one for one: when a call
    leaves [u > 0] orders unmet, the same call for [d] more orders
    returns the same stock and leaves [u + d] unmet. *)
Theorem allocate_recipes_more_orders N (d : Z) s p r s' u :
  0 ≤ d → 0 < u → allocate_recipes N s p r = (s', Ok u) →
  allocate_recipes (N + d) s p r = (s', Ok (u + d)).
Proof.
  intros Hd Hu. unfold allocate_recipes.
  destruct (Z.of_nat (length s) <? r); [by intros [= <- <-]|].
  destruct (Z.le_gt_cases N 0) as [HN|HN].
  { rewrite (range_down_nonpos N) by done. simpl. intros [= _ <-]. lia. }
  rewrite <- (Z2Nat.id N) by lia. by apply allocate_loop_more_orders.
Qed.

(** X6.  Serving in two batches: when a call for [N1] orders serves
    them all, a call for [N1 + N2] orders on the same stock does what a
    call for [N2] orders does on the stock the first call returned. *)
Theorem allocate_recipes_in_two_batches N1 N2 s p r s1 :
  0 ≤ N1 → 0 ≤ N2 → allocate_recipes N1 s p r = (s1, Ok 0) →
  allocate_recipes (N1 + N2) s p r = allocate_recipes N2 s1 p r.
Proof.
  intros H1 H2 Hrun. pose proof (allocate_recipes_length N1 s p r) as Hlen.
  rewrite Hrun in Hlen. simpl in Hlen. revert Hrun. unfold allocate_recipes.
  rewrite Hlen. destruct (Z.of_nat (length s) <? r).
  - intros [= <- ->]. by rewrite Z.add_0_l.
  - rewrite <- (Z2Nat.id N1) by lia. by apply allocate_loop_split.
Qed.

(** X7.  For a non-negative portion size no entry of the stock grows:
    each entry returned is at most the entry given. *)
Theorem allocate_recipes_never_adds N s p r (i : nat) :
  0 ≤ p → (allocate_recipes N s p r).1 !!! i ≤ s !!! i.
Proof.
  intros Hp. unfold allocate_recipes.
  destruct (Z.ltb_spec (Z.of_nat (length s)) r); [done|].
  by apply allocate_loop_stock_le.
Qed.

(** X8.  What is served was in stock: on a stock without negative
    entries, (orders served) * [N_recipes] * [N_portions] is at most the
    total stock given. *)
Theorem allocate_recipes_served_within_stock N s p r s' u :
  nonneg s → 1 ≤ r → 0 ≤ N → allocate_recipes N s p r = (s', Ok u) →
  (N - u) * r * p ≤ total s.
Proof.
  intros Hs Hr HN Hrun.
  pose proof (allocate_recipes_total N s p r s' u Hr HN Hrun) as Htotal.
  pose proof (allocate_recipes_nonneg N s p r Hs) as Hnn.
  rewrite Hrun in Hnn. apply total_nonneg in Hnn. simpl in Hnn. lia.
Qed.

End allocate_extras.

Lemma allocate_recipes_unmet_range_witness :
  0 ≤ 1 ≤ 3 ∧ length [1; 3; 1] = length [5; 7; 1].
Proof.
  apply (allocate_recipes_unmet_range 3 [5; 7; 1] 2 2 [1; 3; 1] 1).
  - lia.
  - vm_compute. reflexivity.
Defined.

Lemma allocate_recipes_conservation_witness :
  total [1; 3; 1] = total [5; 7; 1] - (3 - 1) * 2 * 2.
Proof.
  apply (allocate_recipes_conservation 3 [5; 7; 1] 2 2 [1; 3; 1] 1).
  - lia.
  - lia.
  - vm_compute. reflexivity.
Defined.

Lemma allocate_recipes_enough_stock_witness :
  ∃ s', allocate_recipes 2 [5; 7; 1] 2 2 = (s', Ok 0).
Proof.
  apply (allocate_recipes_enough_stock 2 [5; 7; 1] 2 2).
  - lia.
  - lia.
  - lia.
  - vm_compute. discriminate.
Defined.

Lemma allocate_recipes_more_orders_witness :
  allocate_recipes (3 + 4) [5; 7; 1] 2 2 = ([1; 3; 1], Ok (1 + 4)).
Proof.
  apply (allocate_recipes_more_orders 3 4 [5; 7; 1] 2 2 [1; 3; 1] 1).
  - lia.
  - lia.
  - vm_compute. reflexivity.
Defined.

Lemma allocate_recipes_in_two_batches_witness :
  allocate_recipes (1 + 2) [5; 7; 1] 2 2 = allocate_recipes 2 [3; 5; 1] 2 2.
Proof.
  apply (allocate_recipes_in_two_batches 1 2 [5; 7; 1] 2 2 [3; 5; 1]).
  - lia.
  - lia.
  - vm_compute. reflexivity.
Defined.

Lemma allocate_recipes_never_adds_witness :
  (allocate_recipes 3 [5; 7; 1] 2 2).1 !!! 0%nat ≤ [5; 7; 1] !!! 0%nat.
Proof.
  apply (allocate_recipes_never_adds 3 [5; 7; 1] 2 2 0). lia.
Defined.

Lemma allocate_recipes_served_within_stock_witness :
  (3 - 1) * 2 * 2 ≤ total [5; 7; 1].
Proof.
  apply (allocate_recipes_served_within_stock 3 [5; 7; 1] 2 2 [1; 3; 1] 1).
  - unfold nonneg. repeat (constructor; [lia|]). constructor.
  - lia.
  - lia.
  - vm_compute. reflexivity.
Defined.

(** * Further properties of [fulfil_orders] *)

Lemma mask_set_lookup_other (mask : list bool) (a vals : list Z) (i : nat) :
  mask !! i ≠ Some true → mask_set mask a vals !! i = a !! i.
Proof.
  revert a vals i. induction mask as [|b mask IH]; intros [|x a] vals i Hi; try done.
  destruct i as [|i]; simpl in *.
  - destruct b; [done|]. done.
  - destruct b; [destruct vals|]; simpl; by apply IH.
Qed.

Lemma mask_set_get (mask : list bool) (a : list Z) :
  mask_set mask a (mask_get mask a) = a.
Proof.
  revert a. induction mask as [|b mask IH]; intros [|x a]; try done.
  simpl. destruct b; by rewrite IH.
Qed.

Lemma mask_set_length (mask : list bool) (a vals : list Z) :
  length (mask_set mask a vals) = length a.
Proof.
  revert a vals. induction mask as [|b mask IH]; intros [|x a] vals; try done.
  simpl. destruct b; [destruct vals|]; simpl; by rewrite IH.
Qed.

Section fulfil_extras.
Context `{ArgPartition}.
Implicit Types (st : state) (p r N : Z).

Lemma allocate_recipes_no_orders N s p r :
  N ≤ 0 → ∃ u, allocate_recipes N s p r = (s, Ok u) ∧ u ≤ 0.
Proof.
  intros HN. unfold allocate_recipes. destruct (Z.of_nat (length s) <? r).
  - by exists N.
  - rewrite range_down_nonpos by done. by exists 0.
Qed.

Lemma cell_other veg gou OrdersDF Ordersdict i j k category N p r st :
  reads OrdersDF Ordersdict i j k category N p r →
  category ≠ "vegetarian" → category ≠ "gourmet" →
  cell veg gou OrdersDF Ordersdict i j k st = (Next tt, st).
Proof.
  intros (H0 & H1 & H2 & H3) Hv Hg. unfold cell. unfold_M.
  rewrite H0, H1, H2. simpl.
  destruct (String.eqb_spec category "vegetarian"); [done|].
  by destruct (String.eqb_spec category "gourmet").
Qed.

(** Where a cell makes no call it falls through or raises [IndexError],
    and the state is as it was. *)
Lemma cell_cases_flow veg gou OrdersDF Ordersdict i j k st :
  (∃ N p r, reads OrdersDF Ordersdict i j k "vegetarian" N p r) ∨
  (∃ N p r, reads OrdersDF Ordersdict i j k "gourmet" N p r) ∨
  cell veg gou OrdersDF Ordersdict i j k st = (Next tt, st) ∨
  cell veg gou OrdersDF Ordersdict i j k st = (Throw IndexError, st).
Proof.
  unfold reads, cell. unfold_M.
  destruct (axis0 Ordersdict !! i) as [category|]; [|by do 3 right].
  destruct (axis1 Ordersdict !! j) as [r|]; [|by do 3 right].
  destruct (axis2 Ordersdict !! k) as [p|]; [|by do 3 right].
  simpl. destruct (String.eqb_spec category "vegetarian") as [->|Hv].
  { destruct (lookup3 OrdersDF i j k) as [N|]; [|by do 3 right].
    left. by exists N, p, r. }
  destruct (String.eqb_spec category "gourmet") as [->|Hg].
  { destruct (lookup3 OrdersDF i j k) as [N|]; [|by do 3 right].
    right; left. by exists N, p, r. }
  right; right; by left.
Qed.

Lemma at_cell_verdict StockDF OrdersDF Ordersdict c st :
  Forall (λ c, ¬ decisive_failure c) (calls st) →
  match at_cell StockDF OrdersDF Ordersdict c st with
  | (Next _, st') => Forall (λ c, ¬ decisive_failure c) (calls st')
  | (Return b, st') =>
      b = false ∧ ∃ before c, calls st' = before ++ [c] ∧ decisive_failure c
  | (Throw _, _) => True
  end.
Proof.
  intros Hno. destruct c as [[i j] k]. unfold at_cell. simpl.
  destruct (cell_cases_flow (veg_mask StockDF) (gourmet_mask StockDF)
              OrdersDF Ordersdict i j k st)
    as [(N & p & r & Hread)|[(N & p & r & Hread)|[-> | ->]]]; [| |done..].
  - rewrite (cell_vegetarian _ _ _ _ _ _ _ _ _ _ _ Hread). simpl.
    destruct (allocate_recipes N (mask_get (veg_mask StockDF) (stocks st)) p r)
      as [s' [u|e]] eqn:Hrun; [|done].
    destruct (Z.ltb_spec 0 u) as [Hu|Hu].
    + split; [done|]. eexists _, _. split; [done|]. split; [done|].
      exists u. split; [|done]. by exists s'.
    + simpl. apply Forall_app. split; [done|]. constructor; [|done].
      intros (_ & u' & (s'' & Hrun') & Hu'). simpl in Hrun'.
      rewrite Hrun in Hrun'. simplify_eq. lia.
  - rewrite (cell_gourmet _ _ _ _ _ _ _ _ _ _ _ Hread). simpl.
    set (c1 := Call GourmetStock N (mask_get (gourmet_mask StockDF) (stocks st)) p r).
    assert (Forall (λ c, ¬ decisive_failure c) (calls st ++ [c1])) as Hno1.
    { apply Forall_app. split; [done|]. constructor; [|done]. by intros [? _]. }
    destruct (allocate_recipes N (mask_get (gourmet_mask StockDF) (stocks st)) p r)
      as [s' [u|e]]; [|done].
    destruct (0 <? u); [|done].
    destruct (allocate_recipes u (stocks st) p r) as [s2 [u2|e]] eqn:Hretry; [|done].
    destruct (Z.ltb_spec 0 u2) as [Hu2|Hu2].
    + split; [done|]. eexists _, _. split; [done|]. split; [done|].
      exists u2. split; [|done]. by exists s2.
    + simpl. apply Forall_app. split; [done|]. constructor; [|done].
      intros (_ & u' & (s'' & Hrun') & Hu'). simpl in Hrun'.
      rewrite Hretry in Hrun'. simplify_eq. lia.
Qed.

Lemma for_each_verdict StockDF OrdersDF Ordersdict cs st :
  Forall (λ c, ¬ decisive_failure c) (calls st) →
  match for_each cs (at_cell StockDF OrdersDF Ordersdict) st with
  | (Next _, st') => Forall (λ c, ¬ decisive_failure c) (calls st')
  | (Return b, st') =>
      b = false ∧ ∃ before c, calls st' = before ++ [c] ∧ decisive_failure c
  | (Throw _, _) => True
  end.
Proof.
  revert st. induction cs as [|c cs IH]; intros st Hno; [done|].
  simpl. unfold mbind, M_bind.
  pose proof (at_cell_verdict StockDF OrdersDF Ordersdict c st Hno) as Hc.
  destruct (at_cell StockDF OrdersDF Ordersdict c st) as [[[]| |] st']; [|done..].
  by apply IH.
Qed.

(** X9.  [fulfil_orders] returns [False] only for a real failure: the
    last call made was on the vegetarian stock or on the whole pool and
    left orders unmet.  When it returns [True], no call on the
    vegetarian stock or on the whole pool left an order unmet. *)
Theorem fulfil_orders_verdict (StockDF : list recipe_row)
    (OrdersDF : list (list (list Z))) (Ordersdict : axes) (b : bool) st :
  fulfil_orders StockDF OrdersDF Ordersdict = (Ok b, st) →
  (b = true → Forall (λ c, ¬ decisive_failure c) (calls st)) ∧
  (b = false → ∃ before c, calls st = before ++ [c] ∧ decisive_failure c).
Proof.
  unfold fulfil_orders. rewrite fulfil_loops_cells.
  pose proof (for_each_verdict StockDF OrdersDF Ordersdict (cells OrdersDF)
                (initial_state StockDF) ltac:(constructor)) as Hv.
  destruct (for_each (cells OrdersDF) (at_cell StockDF OrdersDF Ordersdict)
              (initial_state StockDF)) as [[[]|b'|e] st']; intros [= <- <-].
  - split; [done|]. intros [=].
  - destruct Hv as [-> Hlast]. split; [intros [=]|done].
Qed.

(** X10.  A vegetarian cell changes no stock entry outside the
    vegetarian recipes, whatever comes of it. *)
Theorem vegetarian_cell_frame (StockDF : list recipe_row)
    (OrdersDF : list (list (list Z))) (Ordersdict : axes)
    (i j k : nat) N p r st (idx : nat) :
  reads OrdersDF Ordersdict i j k "vegetarian" N p r →
  veg_mask StockDF !! idx ≠ Some true →
  stocks (at_cell StockDF OrdersDF Ordersdict (i, j, k) st).2 !! idx
  = stocks st !! idx.
Proof.
  intros Hread Hidx. unfold at_cell. simpl.
  rewrite (cell_vegetarian _ _ _ _ _ _ _ _ _ _ _ Hread). simpl.
  destruct (allocate_recipes N _ p r) as [s' [u|e]]; [|done].
  destruct (0 <? u); [done|]. simpl. by apply mask_set_lookup_other.
Qed.

(** X11.  A gourmet cell served from the gourmet stock alone changes no
    stock entry outside the gourmet recipes. *)
Theorem gourmet_cell_frame (StockDF : list recipe_row)
    (OrdersDF : list (list (list Z))) (Ordersdict : axes)
    (i j k : nat) N p r st s1 u (idx : nat) :
  reads OrdersDF Ordersdict i j k "gourmet" N p r →
  allocate_recipes N (mask_get (gourmet_mask StockDF) (stocks st)) p r = (s1, Ok u) →
  u ≤ 0 →
  gourmet_mask StockDF !! idx ≠ Some true →
  stocks (at_cell StockDF OrdersDF Ordersdict (i, j, k) st).2 !! idx
  = stocks st !! idx.
Proof.
  intros Hread Hfirst Hu Hidx. unfold at_cell. simpl.
  rewrite (cell_gourmet _ _ _ _ _ _ _ _ _ _ _ Hread). simpl.
  rewrite Hfirst. destruct (Z.ltb_spec 0 u); [lia|].
  simpl. by apply mask_set_lookup_other.
Qed.


Lemma at_cell_no_demand StockDF OrdersDF Ordersdict i j k category N p r st :
  reads OrdersDF Ordersdict i j k category N p r → N ≤ 0 →
  ∃ made, at_cell StockDF OrdersDF Ordersdict (i, j, k) st
          = (Next tt, {| stocks := stocks st; calls := made |}).
Proof.
  intros Hread HN. unfold at_cell. simpl.
  destruct (decide (category = "vegetarian")) as [->|Hv].
  { rewrite (cell_vegetarian _ _ _ _ _ _ _ _ _ _ _ Hread). simpl.
    destruct (allocate_recipes_no_orders N
                (mask_get (veg_mask StockDF) (stocks st)) p r HN) as (u & -> & Hu).
    destruct (Z.ltb_spec 0 u); [lia|]. rewrite mask_set_get. by eexists. }
  destruct (decide (category = "gourmet")) as [->|Hg].
  { rewrite (cell_gourmet _ _ _ _ _ _ _ _ _ _ _ Hread). simpl.
    destruct (allocate_recipes_no_orders N
                (mask_get (gourmet_mask StockDF) (stocks st)) p r HN) as (u & -> & Hu).
    destruct (Z.ltb_spec 0 u); [lia|]. rewrite mask_set_get. by eexists. }
  rewrite (cell_other _ _ _ _ _ _ _ _ _ _ _ _ Hread Hv Hg).
  destruct st. by eexists.
Qed.

(** X13.  No demand: on a table whose cells can all be read and hold no
    order, [fulfil_orders] returns [True] and leaves every stock entry as
    it was. *)
Theorem fulfil_orders_no_demand (StockDF : list recipe_row)
    (OrdersDF : list (list (list Z))) (Ordersdict : axes) :
  (∀ i j k, (i, j, k) ∈ cells OrdersDF →
     ∃ category N p r, reads OrdersDF Ordersdict i j k category N p r ∧ N ≤ 0) →
  (fulfil_orders StockDF OrdersDF Ordersdict).1 = Ok true ∧
  stocks (fulfil_orders StockDF OrdersDF Ordersdict).2 = stock_count <$> StockDF.
Proof.
  intros Hcells. unfold fulfil_orders. rewrite fulfil_loops_cells.
  assert (∀ cs st, (∀ i j k, (i, j, k) ∈ cs → (i, j, k) ∈ cells OrdersDF) →
            ∃ made, for_each cs (at_cell StockDF OrdersDF Ordersdict) st
                    = (Next tt, {| stocks := stocks st; calls := made |})) as Hrun.
  { induction cs as [|[[i j] k] cs IH]; intros st Hin.
    - destruct st. by eexists.
    - destruct (Hcells i j k) as (category & N & p & r & Hread & HN).
      { apply Hin. by left. }
      destruct (at_cell_no_demand StockDF OrdersDF Ordersdict i j k category N p r st
                  Hread HN) as (made & Hcell).
      simpl. unfold mbind, M_bind. rewrite Hcell.
      apply (IH {| stocks := stocks st; calls := made |}).
      intros i' j' k' Hin'. apply Hin. by right. }
  destruct (Hrun (cells OrdersDF) (initial_state StockDF) ltac:(done)) as (made & ->).
  done.
Qed.

Lemma allocate_recipes_returns N s p r :
  1 ≤ r → ∃ s' u, allocate_recipes N s p r = (s', Ok u).
Proof.
  intros Hr. unfold allocate_recipes.
  destruct (Z.ltb_spec (Z.of_nat (length s)) r) as [Hlt|Hge]; [by eexists _, _|].
  apply allocate_loop_returns; [done|]. split; [|lia].
  intros ->. simpl in Hge. lia.
Qed.

Lemma at_cell_returns StockDF OrdersDF Ordersdict i j k category N p r st :
  reads OrdersDF Ordersdict i j k category N p r → 1 ≤ r →
  ∀ e, (at_cell StockDF OrdersDF Ordersdict (i, j, k) st).1 ≠ Throw e.
Proof.
  intros Hread Hr e. unfold at_cell. simpl.
  destruct (decide (category = "vegetarian")) as [->|Hv].
  { rewrite (cell_vegetarian _ _ _ _ _ _ _ _ _ _ _ Hread). simpl.
    destruct (allocate_recipes_returns N
                (mask_get (veg_mask StockDF) (stocks st)) p r Hr) as (s' & u & ->).
    by destruct (0 <? u). }
  destruct (decide (category = "gourmet")) as [->|Hg].
  { rewrite (cell_gourmet _ _ _ _ _ _ _ _ _ _ _ Hread). simpl.
    destruct (allocate_recipes_returns N
                (mask_get (gourmet_mask StockDF) (stocks st)) p r Hr) as (s' & u & ->).
    destruct (0 <? u); [|done].
    destruct (allocate_recipes_returns u (stocks st) p r Hr) as (s2 & u2 & ->).
    by destruct (0 <? u2). }
  by rewrite (cell_other _ _ _ _ _ _ _ _ _ _ _ _ Hread Hv Hg).
Qed.

Lemma for_each_returns StockDF OrdersDF Ordersdict cs st :
  (∀ i j k, (i, j, k) ∈ cs →
     ∃ category N p r, reads OrdersDF Ordersdict i j k category N p r ∧ 1 ≤ r) →
  ∀ e, (for_each cs (at_cell StockDF OrdersDF Ordersdict) st).1 ≠ Throw e.
Proof.
  revert st. induction cs as [|[[i j] k] cs IH]; intros st Hcs e; [done|].
  destruct (Hcs i j k) as (category & N & p & r & Hread & Hr); [by left|].
  pose proof (at_cell_returns StockDF OrdersDF Ordersdict i j k category N p r st
                Hread Hr) as Hcell.
  simpl. unfold mbind, M_bind.
  destruct (at_cell StockDF OrdersDF Ordersdict (i, j, k) st) as [[[]|b|e'] st'].
  - apply IH. intros i' j' k' Hin. apply Hcs. by right.
  - done.
  - by destruct (Hcell e').
Qed.

(** X14.  No exception: on a table whose cells can all be read and whose
    recipes-per-box labels are all at least 1, [fulfil_orders] raises
    nothing: it returns [True] or [False]. *)
Theorem fulfil_orders_never_raises (StockDF : list recipe_row)
    (OrdersDF : list (list (list Z))) (Ordersdict : axes) :
  (∀ i j k, (i, j, k) ∈ cells OrdersDF →
     ∃ category N p r, reads OrdersDF Ordersdict i j k category N p r ∧ 1 ≤ r) →
  ∃ b, (fulfil_orders StockDF OrdersDF Ordersdict).1 = Ok b.
Proof.
  intros Hcells. unfold fulfil_orders. rewrite fulfil_loops_cells.
  pose proof (for_each_returns StockDF OrdersDF Ordersdict (cells OrdersDF)
                (initial_state StockDF) Hcells) as Hno.
  destruct (for_each (cells OrdersDF) (at_cell StockDF OrdersDF Ordersdict)
              (initial_state StockDF)) as [[[]|b|e] st']; [by eexists..|].
  by destruct (Hno e).
Qed.

End fulfil_extras.

(** * The order in which the loops reach the cells *)

Lemma bind_seq_lookup {B} (f : nat → list B) (m a n x y : nat) :
  (∀ z, length (f z) = m) → (x < n)%nat → (y < m)%nat →
  (seq a n ≫= f) !! (x * m + y)%nat = f (a + x)%nat !! y.
Proof.
  intros Hlen. revert a x. induction n as [|n IH]; intros a x Hx Hy; [lia|].
  csimpl. pose proof (Hlen a) as Ha. destruct x as [|x].
  - rewrite lookup_app_l by (simpl; lia).
    by rewrite Nat.add_0_r.
  - rewrite lookup_app_r by (simpl; lia).
    rewrite Ha. replace (S x * m + y - m)%nat with (x * m + y)%nat by (simpl; lia).
    rewrite IH by lia. by replace (S a + x)%nat with (a + S x)%nat by lia.
Qed.

Lemma bind_seq_length {B} (f : nat → list B) (m a n : nat) :
  (∀ z, length (f z) = m) → length (seq a n ≫= f) = (n * m)%nat.
Proof.
  intros Hlen. revert a. induction n as [|n IH]; intros a; [done|].
  csimpl. rewrite length_app, Hlen, IH. lia.
Qed.

(** X15.  The three loops of [fulfil_orders] run the loop body over the
    cells in this order: the index [j] along axis 1 of the table is the
    slowest, then the category index [i], then the index [k] along
    axis 2; cell [(i, j, k)] is the one at place
    [j * (n0 * n2) + i * n2 + k] of the [n1 * (n0 * n2)] cells. *)
Theorem cells_in_loop_order `{ArgPartition} (StockDF : list recipe_row)
    (OrdersDF : list (list (list Z))) (Ordersdict : axes) (i j k : nat) :
  (i < shape0 OrdersDF)%nat → (j < shape1 OrdersDF)%nat → (k < shape2 OrdersDF)%nat →
  (∀ st, fulfil_loops StockDF OrdersDF Ordersdict st
         = for_each (cells OrdersDF) (at_cell StockDF OrdersDF Ordersdict) st) ∧
  length (cells OrdersDF)
  = (shape1 OrdersDF * (shape0 OrdersDF * shape2 OrdersDF))%nat ∧
  cells OrdersDF !! (j * (shape0 OrdersDF * shape2 OrdersDF)
                     + (i * shape2 OrdersDF + k))%nat = Some (i, j, k).
Proof.
  intros Hi Hj Hk. split; [intros st; apply fulfil_loops_cells|]. unfold cells.
  set (inner (j i : nat) := seq 0 (shape2 OrdersDF) ≫= λ k, [(i, j, k)]).
  set (middle (j : nat) := seq 0 (shape0 OrdersDF) ≫= inner j).
  assert (∀ j i, length (inner j i) = shape2 OrdersDF) as Hinner.
  { intros j' i'. unfold inner.
    rewrite (bind_seq_length _ 1) by done. lia. }
  assert (∀ j, length (middle j) = (shape0 OrdersDF * shape2 OrdersDF)%nat) as Hmiddle.
  { intros j'. unfold middle. by rewrite (bind_seq_length _ (shape2 OrdersDF)). }
  split.
  - by rewrite (bind_seq_length middle (shape0 OrdersDF * shape2 OrdersDF)).
  - rewrite (bind_seq_lookup middle (shape0 OrdersDF * shape2 OrdersDF)); [|done..|nia].
    unfold middle. simpl.
    rewrite (bind_seq_lookup (inner j) (shape2 OrdersDF)); [|done..].
    unfold inner. simpl.
    replace k with (k * 1 + 0)%nat at 1 by lia.
    rewrite (bind_seq_lookup _ 1); [|done|done|lia]. done.
Qed.

Lemma cells_in_loop_order_witness :
  (∀ st, fulfil_loops stock_fallback table_fallback axes_fallback st
         = for_each (cells table_fallback)
             (at_cell stock_fallback table_fallback axes_fallback) st) ∧
  length (cells table_fallback)
  = (shape1 table_fallback * (shape0 table_fallback * shape2 table_fallback))%nat ∧
  cells table_fallback !! (0 * (shape0 table_fallback * shape2 table_fallback)
                           + (1 * shape2 table_fallback + 0))%nat
  = Some (1, 0, 0)%nat.
Proof.
  apply (cells_in_loop_order stock_fallback table_fallback axes_fallback 1 0 0);
    unfold shape0, shape1, shape2, table_fallback; simpl; lia.
Defined.

(** * The further properties at concrete inputs *)

Lemma fulfil_orders_verdict_witness :
  (false = true →
     Forall (λ c, ¬ decisive_failure c) [Call VegetarianStock 1 [1; 1] 2 2]) ∧
  (false = false →
     ∃ before c, [Call VegetarianStock 1 [1; 1] 2 2] = before ++ [c]
                 ∧ decisive_failure c).
Proof.
  apply (fulfil_orders_verdict stock_short table_short axes_short false
           {| stocks := [1; 1]; calls := [Call VegetarianStock 1 [1; 1] 2 2] |}).
  vm_compute. reflexivity.
Defined.

Lemma vegetarian_cell_frame_witness :
  stocks (at_cell stock_fallback table_fallback axes_fallback (0, 0, 0)%nat
            (initial_state stock_fallback)).2 !! 2%nat
  = stocks (initial_state stock_fallback) !! 2%nat.
Proof.
  apply (vegetarian_cell_frame stock_fallback table_fallback axes_fallback
           0 0 0 0 4 2 (initial_state stock_fallback) 2).
  - repeat split.
  - vm_compute. discriminate.
Defined.

Lemma gourmet_cell_frame_witness :
  stocks (at_cell stock_fallback [ [[0]]; [[1]] ] axes_fallback (1, 0, 0)%nat
            (initial_state stock_fallback)).2 !! 0%nat
  = stocks (initial_state stock_fallback) !! 0%nat.
Proof.
  apply (gourmet_cell_frame stock_fallback [ [[0]]; [[1]] ] axes_fallback
           1 0 0 1 4 2 (initial_state stock_fallback) [8; 6] 0 0).
  - repeat split.
  - vm_compute. reflexivity.
  - lia.
  - vm_compute. discriminate.
Defined.


Lemma fulfil_orders_no_demand_witness :
  (fulfil_orders stock_short [ [[0]]; [[0]] ] axes_short).1 = Ok true ∧
  stocks (fulfil_orders stock_short [ [[0]]; [[0]] ] axes_short).2
  = stock_count <$> stock_short.
Proof.
  apply (fulfil_orders_no_demand stock_short [ [[0]]; [[0]] ] axes_short).
  intros i j k Hin. apply list_elem_of_In in Hin. simpl in Hin.
  destruct Hin as [Heq|[Heq|[]]]; injection Heq as <- <- <-.
  - exists "vegetarian", 0, 2, 2. split; [repeat split|lia].
  - exists "gourmet", 0, 2, 2. split; [repeat split|lia].
Defined.

Lemma fulfil_orders_never_raises_witness :
  ∃ b, (fulfil_orders stock_fallback table_fallback axes_fallback).1 = Ok b.
Proof.
  apply (fulfil_orders_never_raises stock_fallback table_fallback axes_fallback).
  intros i j k Hin. apply list_elem_of_In in Hin. simpl in Hin.
  destruct Hin as [Heq|[Heq|[]]]; injection Heq as <- <- <-.
  - exists "vegetarian", 0, 4, 2. split; [repeat split|lia].
  - exists "gourmet", 3, 4, 2. split; [repeat split|lia].
Defined.

(** * The tables [load_files] builds *)

#[global] Instance ge_at_total labels : Total (ge_at labels).
Proof. intros i j. unfold ge_at. lia. Qed.

#[global] Instance ge_at_trans labels : Transitive (ge_at labels).
Proof. intros i j k. unfold ge_at. lia. Qed.

Lemma order_desc_perm (labels : list Z) :
  order_desc labels ≡ₚ seq 0 (length labels).
Proof. apply merge_sort_Permutation. Qed.

Lemma order_desc_length (labels : list Z) :
  length (order_desc labels) = length labels.
Proof. by rewrite order_desc_perm, length_seq. Qed.





Lemma from_dict_inv (d : list (string * list (string * Z))) (df : DataFrame) :
  from_dict d = Some df →
  ∃ inner_keys rows,
    Forall (λ ci, ci.2.*1 = inner_keys) d ∧
    mapM (λ rk, mapM (λ ci : string * list (string * Z), dict_get ci.2 rk) d)
      inner_keys = Some rows ∧
    df = {| index := PyStr <$> inner_keys; columns := PyStr <$> d.*1; values := rows |}.
Proof.
  unfold from_dict.
  set (inner_keys := match d with [] => [] | (_, inner) :: _ => inner.*1 end).
  case_bool_decide as Hkeys; [|done].
  destruct (mapM _ inner_keys) as [rows|] eqn:Hrows; [|done].
  simpl. intros [= <-]. by exists inner_keys, rows.
Qed.

Lemma from_dict_shape (d : list (string * list (string * Z))) (df : DataFrame) :
  from_dict d = Some df →
  length (values df) = length (index df) ∧
  Forall (λ row, length row = length (columns df)) (values df).
Proof.
  intros (inner_keys & rows & _ & Hrows & ->)%from_dict_inv. simpl.
  rewrite !length_fmap. split.
  - symmetry. by eapply length_mapM.
  - apply mapM_Some in Hrows. apply Forall_forall. intros row Hrow.
    apply list_elem_of_lookup in Hrow as [a Ha].
    destruct (Forall2_lookup_r _ _ _ a row Hrows Ha) as (rk & _ & Hrk).
    symmetry. by eapply length_mapM.
Qed.







Section default_run.
Context `{ArgPartition}.


End default_run.

(** X19.  Normalising a label twice gives what normalising it once
    gives, and the result is the input itself or one of 2, 3 and 4. *)
Theorem obtain_numbers_idempotent (v : pyobj) :
  obtain_numbers (obtain_numbers v) = obtain_numbers v ∧
  (obtain_numbers v = v ∨ obtain_numbers v = PyInt 2
   ∨ obtain_numbers v = PyInt 3 ∨ obtain_numbers v = PyInt 4).
Proof.
  destruct v as [s|n|]; [|by split; [|left]..].
  assert (obtain_numbers (PyStr s) = PyStr s ∨
          ∃ n, obtain_numbers (PyStr s) = PyInt n ∧ (n = 2 ∨ n = 3 ∨ n = 4))
    as [Heq|[n [Heq Hn]]].
  { unfold obtain_numbers. rewrite numberdict_lookup.
    repeat case_decide; eauto 10. }
  - rewrite !Heq. split; [done|by left].
  - rewrite !Heq. split; [done|].
    destruct Hn as [-> | [-> | ->]]; auto.
Qed.



